(** * csep561: spanning-tree network controller

    A shallow embedding of [csep561/net/spanning_tree_network.py] and the
    properties of its spanning-tree rebuild, root selection and MAC-location
    propagation.

    Python objects live in an explicit store: switches are looked up by
    their [dpid], link objects live in a heap indexed by allocation order,
    and every method that mutates an object is a computation in a small
    state-and-exception monad, so that the store reached when an exception
    propagates remains observable. *)

From Stdlib Require Import ZArith Lia.
From stdpp Require Import base option list gmap sets relations.

#[global] Set Warnings "-clear-no-such-hyp".

(** ** Data model *)

Abbreviation dpid := Z (only parsing).
Abbreviation port_no := Z (only parsing).
Abbreviation mac_addr := Z (only parsing).
(** A reference to a [Link] object: its index in the heap of links. *)
Abbreviation link_ref := nat (only parsing).

(** Modelled from the spec: the [Link] class of [device/lldp_switch.py] is
    not part of the sources.  A directed edge with its owning switch, local
    port, neighbour switch, neighbour port, the reference to its reverse
    link and the active flag (initially false). *)
Record Link := mkLink {
  link_owner : dpid;
  link_port : port_no;
  link_switch : dpid;
  link_remote_port : port_no;
  link_reverse : link_ref;
  link_active : bool
}.

(** Modelled from the spec: the [LldpSwitch] class is not part of the
    sources.  The ordered collection of outgoing links (discovery order) and
    the MAC to port table. *)
Record LldpSwitch := mkSwitch {
  sw_links : list link_ref;
  sw_mac_table : gmap mac_addr port_no
}.

(** The controller: the registry of switches of the [Network] base class,
    the heap of link objects, [self.root], and the lines written by
    [logger.debug] in [_teach_mac_location]. *)
Record SpanningTreeNetwork := mkNet {
  switches : gmap dpid LldpSwitch;
  heap : list Link;
  root : option dpid;
  teach_log : list (dpid * mac_addr * port_no)
}.

(** [SpanningTreeNetwork.__init__]: no root; switches connect later. *)
Definition init : SpanningTreeNetwork := mkNet ∅ [] None [].

(** ** Exceptions and the state monad *)

Inductive exn := AttributeError | KeyError | Exception.

Inductive outcome (A : Type) :=
  | Ret (a : A)
  | Raise (e : exn)
  | OutOfFuel.
Arguments Ret {A} a.
Arguments Raise {A} e.
Arguments OutOfFuel {A}.

Definition M (A : Type) : Type :=
  SpanningTreeNetwork → outcome A * SpanningTreeNetwork.

#[global] Instance M_ret : MRet M := λ A a s, (Ret a, s).
#[global] Instance M_bind : MBind M := λ A B f m s,
  match m s with
  | (Ret a, s') => f a s'
  | (Raise e, s') => (Raise e, s')
  | (OutOfFuel, s') => (OutOfFuel, s')
  end.

Definition raise {A} (e : exn) : M A := λ s, (Raise e, s).
Definition out_of_fuel {A} : M A := λ s, (OutOfFuel, s).
Definition get_state : M SpanningTreeNetwork := λ s, (Ret s, s).
Definition put_state (s : SpanningTreeNetwork) : M unit := λ _, (Ret tt, s).

(** [for x in xs: body x] *)
Fixpoint for_each {A} (xs : list A) (body : A → M unit) : M unit :=
  match xs with
  | [] => mret tt
  | x :: xs' => body x ;; for_each xs' body
  end.

(** ** Collaborators *)

Definition set_active (b : bool) (l : Link) : Link :=
  mkLink (link_owner l) (link_port l) (link_switch l) (link_remote_port l)
         (link_reverse l) b.

Definition set_links (ls : list link_ref) (sw : LldpSwitch) : LldpSwitch :=
  mkSwitch ls (sw_mac_table sw).

Definition set_heap (h : list Link) (s : SpanningTreeNetwork) :=
  mkNet (switches s) h (root s) (teach_log s).
Definition set_switches (m : gmap dpid LldpSwitch) (s : SpanningTreeNetwork) :=
  mkNet m (heap s) (root s) (teach_log s).
Definition set_root (r : option dpid) (s : SpanningTreeNetwork) :=
  mkNet (switches s) (heap s) r (teach_log s).
Definition add_log (e : dpid * mac_addr * port_no) (s : SpanningTreeNetwork) :=
  mkNet (switches s) (heap s) (root s) (teach_log s ++ [e]).

(** Modelled from the spec: [Network._get_switch] is not part of the
    sources.  Lookup by identifier in the registry, none when absent. *)
Definition _get_switch (d : dpid) : M (option LldpSwitch) :=
  λ s, (Ret (switches s !! d), s).

(** Dereferencing a link object.  A reference always denotes a live object
    in Python; an index outside the heap has no counterpart there and is
    reported as an [AttributeError]. *)
Definition deref (i : link_ref) : M Link :=
  λ s, match heap s !! i with
       | Some l => (Ret l, s)
       | None => (Raise AttributeError, s)
       end.

(** Reading [switch.links] through a switch reference.  Switch references
    are represented by the [dpid]; a reference to no registered switch is
    the attribute access on [None]. *)
Definition links_of (d : dpid) : M (list link_ref) :=
  sw ← _get_switch d;
  match sw with
  | Some sw => mret (sw_links sw)
  | None => raise AttributeError
  end.

(** Modelled from the spec: [Link.activate], [Link.deactivate],
    [Link.is_active] and [Link.get_reverse] are not part of the sources.
    They write and read the active flag of this one object, and return the
    reverse reference. *)
Definition activate (i : link_ref) : M unit :=
  λ s, (Ret tt, set_heap (alter (set_active true) i (heap s)) s).
Definition deactivate (i : link_ref) : M unit :=
  λ s, (Ret tt, set_heap (alter (set_active false) i (heap s)) s).
Definition is_active (l : Link) : bool := link_active l.
Definition get_reverse (l : Link) : link_ref := link_reverse l.

(** Modelled from the spec: [LldpSwitch.learn_mac_location] is not part of
    the sources.  Records [mac -> port] in the table of the switch,
    overwriting any prior binding. *)
Definition learn_mac_location (d : dpid) (mac : mac_addr) (p : port_no) : M unit :=
  λ s, match switches s !! d with
       | Some sw =>
           (Ret tt,
            set_switches
              (<[d := mkSwitch (sw_links sw) (<[mac := p]> (sw_mac_table sw))]>
                 (switches s)) s)
       | None => (Raise AttributeError, s)
       end.

Definition has_port (h : list Link) (p : port_no) (i : link_ref) : bool :=
  match h !! i with
  | Some l => bool_decide (link_port l = p)
  | None => false
  end.

(** Modelled from the spec: [LldpSwitch.add_link] is not part of the
    sources.  For a (local switch, local port) edge not seen before, both
    directed links are created, cross-linked as mutual reverses and
    inactive; the rediscovery of a known (switch, port) creates nothing. *)
Definition add_link (local : dpid) (local_port : port_no)
    (remote : dpid) (remote_port : port_no) : M unit :=
  λ s,
    match switches s !! local with
    | None => (Raise AttributeError, s)
    | Some lsw =>
        if existsb (has_port (heap s) local_port) (sw_links lsw) then (Ret tt, s)
        else
          let n := length (heap s) in
          let fwd := mkLink local local_port remote remote_port (S n) false in
          let bwd := mkLink remote remote_port local local_port n false in
          let m1 := <[local := set_links (sw_links lsw ++ [n]) lsw]> (switches s) in
          match m1 !! remote with
          | None => (Raise AttributeError, s)
          | Some rsw =>
              let m2 := <[remote := set_links (sw_links rsw ++ [S n]) rsw]> m1 in
              (Ret tt, mkNet m2 (heap s ++ [fwd; bwd]) (root s) (teach_log s))
          end
    end.

(** ** The source: [SpanningTreeNetwork] *)

Fixpoint foldM {A S} (f : A → S → M S) (xs : list A) (acc : S) : M S :=
  match xs with
  | [] => mret acc
  | x :: xs' => acc' ← f x acc; foldM f xs' acc'
  end.

(** The link objects of [switch.links], in discovery order. *)
Definition link_objects (d : dpid) : M (list Link) :=
  ls ← links_of d; mapM deref ls.

(** Lines 35-46: the worklist loop that collects the switches for which the
    tree is rebuilt.  [added] only receives a switch when the loop reaches
    it, so [sws] may hold a switch several times.  One unit of fuel is one
    iteration of the [while]. *)
Fixpoint sweep (fuel : nat) (sws : list dpid) (added : gset dpid) (i : nat)
    : M (list dpid) :=
  match fuel with
  | 0 => out_of_fuel
  | S fuel' =>
      match sws !! i with
      | None => mret sws
      | Some switch =>
          let added := {[switch]} ∪ added in
          links ← link_objects switch;
          let links := filter (λ x, link_switch x ∉ added) links in
          sweep fuel' (sws ++ (link_switch <$> links)) added (S i)
      end
  end.

(** Lines 49-52: one [DijkstraNode] per switch, keyed by [dpid], with the
    neighbour list mirrored from the link targets; [nodes[x.switch.dpid]]
    raises [KeyError] for a target without a node. *)
Definition build_nodes (sws : list dpid) : M (gmap dpid (list dpid)) :=
  let keys : gset dpid := list_to_set sws in
  foldM (λ switch nodes,
           links ← link_objects switch;
           if forallb (λ x, bool_decide (link_switch x ∈ keys)) links
           then mret (<[switch := link_switch <$> links]> nodes)
           else raise KeyError)
        sws ∅.

(** Lines 63-81: the treatment of one link of the switch [node_name], whose
    best neighbour is [best_name]. *)
Definition classify_link (best_name : dpid) (i : link_ref)
    (acc : gset link_ref * gset link_ref) : M (gset link_ref * gset link_ref) :=
  let '(best_links, links_to_deactivate) := acc in
  link ← deref i;
  let reverse := get_reverse link in
  if bool_decide (link_switch link = best_name) then
    activate i;;
    activate reverse;;
    mret ({[i; reverse]} ∪ best_links, links_to_deactivate ∖ {[i; reverse]})
  else if bool_decide ((i ∉ best_links) ∧ (reverse ∉ best_links)) then
    mret (best_links, {[i; reverse]} ∪ links_to_deactivate)
  else mret (best_links, links_to_deactivate).

(** Lines 59-63: one item of [paths]. *)
Definition classify_node (item : dpid * option dpid)
    (acc : gset link_ref * gset link_ref) : M (gset link_ref * gset link_ref) :=
  match item.2 with
  | None => mret acc
  | Some best_name =>
      ls ← links_of item.1;
      foldM (classify_link best_name) ls acc
  end.

Section WithShortestPaths.

(** [find_shortest_paths] of [graph/dijkstra.py] is not part of the sources:
    it is a parameter of the development.  It receives the identifier of the
    source node and the node graph (identifier to neighbour identifiers) and
    returns the items of [paths] in the iteration order of that dict: node
    identifier and the identifier of its best neighbour, if any. *)
Variable find_shortest_paths :
  dpid → gmap dpid (list dpid) → list (dpid * option dpid).

(** Lines 30-85. *)
Definition _rebuild_spanning_tree (fuel : nat) (start : option dpid) : M unit :=
  s ← get_state;
  let start := match start with Some x => Some x | None => root s end in
  match start with
  | None => raise AttributeError
  | Some start =>
      sws ← sweep fuel [start] ∅ 0;
      nodes ← build_nodes sws;
      let paths := find_shortest_paths start nodes in
      sets ← foldM classify_node paths (∅, ∅);
      for_each (elements sets.2) deactivate
  end.

(** Lines 92-98.  One unit of fuel is one level of recursion. *)
Fixpoint _teach_mac_location (fuel : nat) (switch : dpid) (mac : mac_addr)
    (port : port_no) : M unit :=
  match fuel with
  | 0 => out_of_fuel
  | S fuel' =>
      s ← get_state;
      put_state (add_log (switch, mac, port) s);;
      learn_mac_location switch mac port;;
      links ← link_objects switch;
      for_each
        (filter (λ x, link_port x ≠ port ∧ Is_true (is_active x)) links)
        (λ link,
           reverse ← deref (get_reverse link);
           _teach_mac_location fuel' (link_switch link) mac (link_port reverse))
  end.

Record LinkDiscoveryEvent := mkLinkEvent {
  ev_local_switch : dpid;
  ev_local_port : port_no;
  ev_remote_dpid : dpid;
  ev_remote_port : port_no
}.

(** Lines 119-122. *)
Definition update_root (local remote : dpid) : M unit :=
  s ← get_state;
  match root s with
  | None => put_state (set_root (Some local) s)
  | Some r =>
      if bool_decide (local < r)%Z
      then put_state (set_root (Some local) s) else mret tt
  end;;
  s ← get_state;
  match root s with
  | None => raise AttributeError
  | Some r =>
      if bool_decide (remote < r)%Z
      then put_state (set_root (Some remote) s) else mret tt
  end.

(** Lines 105-126. *)
Definition _handle_switch_LinkDiscoveryEvent (fuel : nat)
    (event : LinkDiscoveryEvent) : M unit :=
  local_switch ← _get_switch (ev_local_switch event);
  match local_switch with
  | None => raise Exception
  | Some _ =>
      remote_switch ← _get_switch (ev_remote_dpid event);
      match remote_switch with
      | None => raise Exception
      | Some _ =>
          add_link (ev_local_switch event) (ev_local_port event)
                   (ev_remote_dpid event) (ev_remote_port event);;
          update_root (ev_local_switch event) (ev_remote_dpid event);;
          _rebuild_spanning_tree fuel None
      end
  end.

(** Lines 132-139. *)
Definition _handle_switch_UnknownPacketSourceEvent (fuel : nat)
    (switch : dpid) (src : mac_addr) (in_port : port_no) : M unit :=
  _teach_mac_location fuel switch src in_port.

End WithShortestPaths.

(** ** The shortest-path engine *)

(** Modelled from the spec: [find_shortest_paths] of [graph/dijkstra.py] is
    not part of the sources.  Single-source shortest paths over the
    unweighted node graph; the first-discovered edge wins a tie; the source
    and the unreachable nodes map to none; every node has an entry. *)
Fixpoint bfs (fuel : nat) (nodes : gmap dpid (list dpid)) (queue : list dpid)
    (pred : gmap dpid (option dpid)) : gmap dpid (option dpid) :=
  match fuel with
  | 0 => pred
  | S fuel' =>
      match queue with
      | [] => pred
      | x :: queue' =>
          let visit (acc : gmap dpid (option dpid) * list dpid) (y : dpid) :=
            match acc.1 !! y with
            | Some _ => acc
            | None => (<[y := Some x]> acc.1, acc.2 ++ [y])
            end in
          let acc := foldl visit (pred, queue') (default [] (nodes !! x)) in
          bfs fuel' nodes acc.2 acc.1
      end
  end.

Definition bfs_shortest_paths (source : dpid) (nodes : gmap dpid (list dpid))
    : list (dpid * option dpid) :=
  let pred := bfs (S (size nodes)) nodes [source] {[source := None]} in
  (λ k, (k, default None (pred !! k))) <$> (map_to_list nodes).*1.


(** ** Event sequences and example networks *)

(** The events are processed one at a time, in arrival order. *)
Definition handle_events
    (find_shortest_paths : dpid → gmap dpid (list dpid) → list (dpid * option dpid))
    (fuel : nat) (events : list LinkDiscoveryEvent) : M unit :=
  for_each events (_handle_switch_LinkDiscoveryEvent find_shortest_paths fuel).

(** The switches that appeared as an endpoint of a discovered link. *)
Definition endpoints (events : list LinkDiscoveryEvent) : list dpid :=
  events ≫= λ e, [ev_local_switch e; ev_remote_dpid e].

Definition is_minimum (m : dpid) (ds : list dpid) : Prop :=
  m ∈ ds ∧ ∀ d, d ∈ ds → (m ≤ d)%Z.

(** Modelled from the spec: the connection bookkeeping of the [Network] base
    class is not part of the sources.  A switch that connects is registered
    under its identifier, without links and with an empty MAC table. *)
Definition connect (d : dpid) (s : SpanningTreeNetwork) : SpanningTreeNetwork :=
  set_switches (<[d := mkSwitch [] ∅]> (switches s)) s.

(** Four connected switches, no link discovered yet. *)
Definition four_switches : SpanningTreeNetwork :=
  connect 1 (connect 2 (connect 3 (connect 4 init))).

(** ** Specification vocabulary *)

(** [preserves R m]: whatever the outcome of [m], exception included, the
  store it leaves is related by [R] to the store it started from. *)
Definition preserves {A} (R : relation SpanningTreeNetwork) (m : M A) : Prop :=
  ∀ s o s', m s = (o, s') → R s s'.

(** Two stores with the same topology: they differ in active flags only. *)
Definition same_topology (s s' : SpanningTreeNetwork) : Prop :=
  switches s = switches s' ∧ root s = root s' ∧ teach_log s = teach_log s' ∧
  set_active false <$> heap s = set_active false <$> heap s'.

(** Well-formed stores: the links listed by a switch are live objects owned
    by it, every link object is listed by its owner, and the reverse of a
    link is the link back from the neighbour, whose own reverse it is. *)
Record wf (s : SpanningTreeNetwork) : Prop := mk_wf {
  wf_listed : ∀ d sw i,
    switches s !! d = Some sw → i ∈ sw_links sw →
    ∃ l, heap s !! i = Some l ∧ link_owner l = d;
  wf_owned : ∀ i l,
    heap s !! i = Some l →
    ∃ sw, switches s !! link_owner l = Some sw ∧ i ∈ sw_links sw;
  wf_reverse : ∀ i l,
    heap s !! i = Some l →
    ∃ r, heap s !! link_reverse l = Some r ∧ link_reverse r = i ∧
         link_owner r = link_switch l ∧ link_switch r = link_owner l ∧
         link_port r = link_remote_port l;
  wf_nodup : ∀ d sw, switches s !! d = Some sw → NoDup (sw_links sw)
}.

(** A link and its reverse carry the same active flag. *)
Definition symmetric (s : SpanningTreeNetwork) : Prop :=
  ∀ i l r,
    heap s !! i = Some l → heap s !! link_reverse l = Some r →
    link_active l = link_active r.

(** A decision procedure for [wf], for concrete stores. *)
Definition link_ok (s : SpanningTreeNetwork) (i : link_ref) : bool :=
  match heap s !! i with
  | None => false
  | Some l =>
      match switches s !! link_owner l, heap s !! link_reverse l with
      | Some sw, Some r =>
          bool_decide (i ∈ sw_links sw) && bool_decide (link_reverse r = i) &&
          bool_decide (link_owner r = link_switch l) &&
          bool_decide (link_switch r = link_owner l) &&
          bool_decide (link_port r = link_remote_port l)
      | _, _ => false
      end
  end.

Definition switch_ok (s : SpanningTreeNetwork) (x : dpid * LldpSwitch) : bool :=
  forallb (λ i, match heap s !! i with
                | Some l => bool_decide (link_owner l = x.1)
                | None => false
                end) (sw_links x.2)
  && bool_decide (NoDup (sw_links x.2)).

Definition wf_check (s : SpanningTreeNetwork) : bool :=
  forallb (link_ok s) (seq 0 (length (heap s)))
  && forallb (switch_ok s) (map_to_list (switches s)).

Definition symmetric_check (s : SpanningTreeNetwork) : bool :=
  forallb (λ l, match heap s !! link_reverse l with
                | Some r => bool_decide (link_active l = link_active r)
                | None => true
                end) (heap s).

(** The links of a switch, the reverse and the target of a link, read from
    the store without the monad. *)
Definition links_at (s : SpanningTreeNetwork) (d : dpid) : list link_ref :=
  from_option sw_links [] (switches s !! d).
Definition rev_of (s : SpanningTreeNetwork) (i : link_ref) : link_ref :=
  from_option link_reverse i (heap s !! i).
Definition target_of (s : SpanningTreeNetwork) (i : link_ref) : option dpid :=
  link_switch <$> heap s !! i.
Definition owner_of (s : SpanningTreeNetwork) (i : link_ref) : option dpid :=
  link_owner <$> heap s !! i.
Definition active_at (s : SpanningTreeNetwork) (i : link_ref) : bool :=
  from_option link_active false (heap s !! i).

(** The neighbours of a switch over all known links, whatever their flag. *)
Definition targets (s : SpanningTreeNetwork) (d : dpid) : list dpid :=
  omap (target_of s) (links_at s d).

(** [linked s a b]: some known link leads from switch [a] to switch [b]. *)
Definition linked (s : SpanningTreeNetwork) (a b : dpid) : Prop :=
  b ∈ targets s a.

(** The outcome of lines 56-85 in closed form.  The links examined are those
    of the nodes of [paths] that have a best neighbour; among them the
    up-links lead to that best neighbour. *)
Definition examined_at (s : SpanningTreeNetwork) (item : dpid * option dpid)
    : gset link_ref :=
  match item.2 with
  | Some _ => list_to_set (links_at s item.1)
  | None => ∅
  end.

Definition uplinks_at (s : SpanningTreeNetwork) (item : dpid * option dpid)
    : gset link_ref :=
  match item.2 with
  | Some b => list_to_set (filter (λ i, target_of s i = Some b) (links_at s item.1))
  | None => ∅
  end.

Definition examined (s : SpanningTreeNetwork) (paths : list (dpid * option dpid))
    : gset link_ref := ⋃ (examined_at s <$> paths).
Definition uplinks (s : SpanningTreeNetwork) (paths : list (dpid * option dpid))
    : gset link_ref := ⋃ (uplinks_at s <$> paths).

(** A set of links together with their reverses. *)
Definition with_reverses (s : SpanningTreeNetwork) (X : gset link_ref)
    : gset link_ref := X ∪ set_map (rev_of s) X.

Definition best_set (s : SpanningTreeNetwork) paths : gset link_ref :=
  with_reverses s (uplinks s paths).
Definition dropped_set (s : SpanningTreeNetwork) paths : gset link_ref :=
  with_reverses s (examined s paths) ∖ best_set s paths.

(** Rewriting the active flag of every link object. *)
Definition reflag (f : link_ref → bool → bool) (h : list Link) : list Link :=
  imap (λ i l, set_active (f i (link_active l)) l) h.

Definition new_flag (B D : gset link_ref) (i : link_ref) (a : bool) : bool :=
  if decide (i ∈ D) then false else if decide (i ∈ B) then true else a.

Definition rebuilt (s : SpanningTreeNetwork) paths : SpanningTreeNetwork :=
  set_heap (reflag (new_flag (best_set s paths) (dropped_set s paths)) (heap s)) s.

(** The store in the middle of the loop of lines 59-81, when the up-links
    found so far are [U]: they and their reverses have been activated. *)
Definition marked (s : SpanningTreeNetwork) (U : gset link_ref)
    : SpanningTreeNetwork :=
  set_heap (reflag (new_flag (with_reverses s U) ∅) (heap s)) s.

(** Every node of [paths] that has a best neighbour is a registered switch. *)
Definition paths_registered (s : SpanningTreeNetwork)
    (paths : list (dpid * option dpid)) : Prop :=
  ∀ x b, (x, Some b) ∈ paths → is_Some (switches s !! x).

(** The switch a rebuild starts from: the argument, or else the root. *)
Definition start_of (start : option dpid) (s : SpanningTreeNetwork) : option dpid :=
  match start with Some x => Some x | None => root s end.

(** ** The loops that only read the store, without the store *)

#[global] Instance outcome_ret : MRet outcome := @Ret.
#[global] Instance outcome_bind : MBind outcome := λ A B f m,
  match m with
  | Ret a => f a
  | Raise e => Raise e
  | OutOfFuel => OutOfFuel
  end.

Definition outcome_map {A B} (f : A → B) (o : outcome A) : outcome B :=
  match o with
  | Ret a => Ret (f a)
  | Raise e => Raise e
  | OutOfFuel => OutOfFuel
  end.

(** What [link_objects] returns. *)
Definition objects (s : SpanningTreeNetwork) (d : dpid) : outcome (list Link) :=
  match switches s !! d with
  | None => Raise AttributeError
  | Some sw =>
      match mapM (λ i, heap s !! i) (sw_links sw) with
      | Some ls => Ret ls
      | None => Raise AttributeError
      end
  end.

(** The neighbour switches over the links of a switch, in link order. *)
Definition neighbours (s : SpanningTreeNetwork) (d : dpid) : outcome (list dpid) :=
  outcome_map (fmap link_switch) (objects s d).

(** The worklist loop of [sweep] over a neighbour function. *)
Fixpoint sweep_pure (nb : dpid → outcome (list dpid)) (fuel : nat)
    (sws : list dpid) (added : gset dpid) (i : nat) : outcome (list dpid) :=
  match fuel with
  | 0 => OutOfFuel
  | S fuel' =>
      match sws !! i with
      | None => Ret sws
      | Some switch =>
          ts ← nb switch;
          sweep_pure nb fuel'
            (sws ++ filter (λ y, y ∉ {[switch]} ∪ added) ts)
            ({[switch]} ∪ added) (S i)
      end
  end.

Fixpoint build_nodes_loop (nb : dpid → outcome (list dpid)) (keys : gset dpid)
    (sws : list dpid) (nodes : gmap dpid (list dpid))
    : outcome (gmap dpid (list dpid)) :=
  match sws with
  | [] => Ret nodes
  | switch :: sws' =>
      ts ← nb switch;
      if forallb (λ y, bool_decide (y ∈ keys)) ts
      then build_nodes_loop nb keys sws' (<[switch := ts]> nodes)
      else Raise KeyError
  end.

Definition build_nodes_pure (nb : dpid → outcome (list dpid)) (sws : list dpid)
    : outcome (gmap dpid (list dpid)) :=
  build_nodes_loop nb (list_to_set sws) sws ∅.

(** ** Example stores *)

(** Switches 1, 2 and 3 in a line, after both discoveries. *)
Definition line_net : SpanningTreeNetwork :=
  (handle_events bfs_shortest_paths 20
     [mkLinkEvent 1 1 2 1; mkLinkEvent 2 2 3 1] four_switches).2.

(** Switches 1, 2 and 3 in a triangle, after the three discoveries. *)
Definition triangle_net : SpanningTreeNetwork :=
  (handle_events bfs_shortest_paths 20
     [mkLinkEvent 2 1 3 1; mkLinkEvent 3 2 1 1; mkLinkEvent 1 2 2 2]
     four_switches).2.

(** Switches 1 and 2 joined by two links, on ports 1 and 2 of each. *)
Definition parallel_net : SpanningTreeNetwork :=
  (handle_events bfs_shortest_paths 20
     [mkLinkEvent 1 1 2 1; mkLinkEvent 1 2 2 2] four_switches).2.

(** ** Termination of the worklist loop *)

(** A bound on the work that one pending switch can cause when [k] switches
    have not been reached yet and no switch has more than [deg] links. *)
Fixpoint work_bound (deg k : nat) : nat :=
  match k with
  | 0 => 1
  | S k' => 1 + deg * work_bound deg k'
  end.

Definition pending_work (deg : nat) (U added : gset dpid) (z : dpid) : nat :=
  1 + deg * work_bound deg (size (U ∖ ({[z]} ∪ added))).

(** The largest number of links of one switch. *)
Definition max_degree (s : SpanningTreeNetwork) : nat :=
  max_list ((λ x, length (sw_links x.2)) <$> map_to_list (switches s)).

(** Fuel that suffices for the reachability loop of a rebuild from any
    switch of the store. *)
Definition sweep_fuel (s : SpanningTreeNetwork) : nat :=
  2 + max_degree s * work_bound (max_degree s) (size (dom (switches s))).

(** One step of the reachability loop over a neighbour function. *)
Definition nb_step (nb : dpid → outcome (list dpid)) (a b : dpid) : Prop :=
  ∃ ts, nb a = Ret ts ∧ b ∈ ts.

(** [reachable s x y]: switch [y] is transitively connected to switch [x] by
    known links, whatever their active flag. *)
Definition reachable (s : SpanningTreeNetwork) : relation dpid :=
  rtc (linked s).

(** The shortest-path engine returns entries for nodes it was given only. *)
Definition names_given_nodes
    (fsp : dpid → gmap dpid (list dpid) → list (dpid * option dpid)) : Prop :=
  ∀ x nodes k b, (k, b) ∈ fsp x nodes → k ∈ dom nodes.

(** The scope of a rebuild from [x]: the switches collected are those
    connected to [x], and the node graph mirrors their links. *)
Definition rebuild_scope (s : SpanningTreeNetwork) (x : dpid)
    (sws : list dpid) (nodes : gmap dpid (list dpid)) : Prop :=
  (∀ a, a ∈ sws ↔ reachable s x a) ∧
  (∀ a, a ∈ dom nodes ↔ a ∈ sws) ∧
  (∀ a, a ∈ sws → is_Some (switches s !! a) ∧ nodes !! a = Some (targets s a)).

(** ** Vocabulary for MAC-location propagation *)

Definition port_of (s : SpanningTreeNetwork) (i : link_ref) : port_no :=
  from_option link_port 0%Z (heap s !! i).
Definition dest (s : SpanningTreeNetwork) (i : link_ref) : dpid :=
  from_option link_switch 0%Z (heap s !! i).

(** The binding of a MAC address in the table of a switch. *)
Definition mac_at (s : SpanningTreeNetwork) (d : dpid) (mac : mac_addr)
    : option port_no :=
  sw ← switches s !! d; sw_mac_table sw !! mac.

(** The links of [d] that a call of [_teach_mac_location] with [port]
    follows: the active ones whose local port differs from [port]. *)
Definition followed (s : SpanningTreeNetwork) (d : dpid) (port : port_no)
    : list link_ref :=
  filter (λ i, port_of s i ≠ port ∧ active_at s i = true) (links_at s d).

(** The store after the first two statements of [_teach_mac_location]. *)
Definition learned (s : SpanningTreeNetwork) (d : dpid) (mac : mac_addr)
    (port : port_no) (sw : LldpSwitch) : SpanningTreeNetwork :=
  set_switches
    (<[d := mkSwitch (sw_links sw) (<[mac := port]> (sw_mac_table sw))]>
       (switches s))
    (add_log (d, mac, port) s).

(** Two stores with the same links: they differ in MAC tables and in the
    log only. *)
Definition same_links (s s' : SpanningTreeNetwork) : Prop :=
  heap s = heap s' ∧ root s = root s' ∧
  ∀ d, sw_links <$> switches s !! d = sw_links <$> switches s' !! d.

(** Walks over active links: [walk s d w d'] when the links [w] lead from
    switch [d] to switch [d'], each one active and leaving the switch the
    previous one entered. *)
Inductive walk (s : SpanningTreeNetwork) : dpid → list link_ref → dpid → Prop :=
  | walk_nil d : walk s d [] d
  | walk_cons d i w d' :
      i ∈ links_at s d → active_at s i = true →
      walk s (dest s i) w d' → walk s d (i :: w) d'.

(** A walk that never takes the reverse of the link it just took. *)
Fixpoint nonback (s : SpanningTreeNetwork) (w : list link_ref) : Prop :=
  match w with
  | i :: (j :: _) as w' => j ≠ rev_of s i ∧ nonback s w'
  | _ => True
  end.

(** The active links form a forest: no walk without backtracking returns
    to the switch it left. *)
Definition acyclic (s : SpanningTreeNetwork) : Prop :=
  ∀ d w, w ≠ [] → walk s d w d → nonback s w → False.

(** Any two switches joined by active links are joined by at most [D] of
    them. *)
Definition diameter_le (s : SpanningTreeNetwork) (D : nat) : Prop :=
  ∀ d w d', walk s d w d' → ∃ w', walk s d w' d' ∧ length w' ≤ D.

(** A walk that never leaves a switch on the port it entered by, where the
    first switch counts as entered by [port]: the walks that
    [_teach_mac_location] follows. *)
Fixpoint off_port (s : SpanningTreeNetwork) (port : port_no)
    (w : list link_ref) : Prop :=
  match w with
  | [] => True
  | i :: w' => port_of s i ≠ port ∧ off_port s (port_of s (rev_of s i)) w'
  end.

(** The port by which a walk enters its last switch. *)
Definition arrival (s : SpanningTreeNetwork) (port : port_no)
    (w : list link_ref) : port_no :=
  match last w with
  | None => port
  | Some i => port_of s (rev_of s i)
  end.

(** The binding of [mac] at switch [X] after the teachings logged in [L],
    starting from the binding [old]: the last one logged wins. *)
Definition replay (L : list (dpid * mac_addr * port_no)) (X : dpid)
    (mac : mac_addr) (old : option port_no) : option port_no :=
  foldl (λ acc e, if decide (e.1.1 = X ∧ e.1.2 = mac) then Some e.2 else acc)
        old L.

(** What a completed call [_teach_mac_location _ d mac port] does between
    the stores [s] and [s'], read over the links of the store [t]: the lines
    it logs are the ends of the walks from [d] that never leave a switch on
    the port they entered by, and the MAC tables are the old ones with the
    logged teachings replayed. *)
Definition teach_post (t : SpanningTreeNetwork) (mac : mac_addr) (d : dpid)
    (port : port_no) (s s' : SpanningTreeNetwork) : Prop :=
  ∃ L, teach_log s' = teach_log s ++ L ∧
       (∀ e, e ∈ L ↔
             ∃ w X, walk t d w X ∧ off_port t port w ∧
                    e = (X, mac, arrival t port w)) ∧
       ∀ X m, mac_at s' X m = replay L X m (mac_at s X m).

(** A walk taken backwards, over the reverse links. *)
Definition rwalk (s : SpanningTreeNetwork) (w : list link_ref) : list link_ref :=
  reverse (rev_of s <$> w).

(** ** Deciding that the active links of a concrete store form a forest *)

(** Link [i] may be put in front of the walk [w]. *)
Definition extendsb (s : SpanningTreeNetwork) (i : link_ref)
    (w : list link_ref) : bool :=
  active_at s i &&
  match w with
  | [] => true
  | j :: _ =>
      bool_decide (owner_of s j = Some (dest s i)) &&
      bool_decide (j ≠ rev_of s i)
  end.

Definition extend (s : SpanningTreeNetwork) (w : list link_ref)
    : list (list link_ref) :=
  (λ i, i :: w) <$>
    filter (λ i, extendsb s i w = true) (seq 0 (length (heap s))).

(** All the walks of [k] links without backtracking. *)
Fixpoint nb_walks (s : SpanningTreeNetwork) (k : nat) : list (list link_ref) :=
  match k with
  | 0 => [[]]
  | S k' => nb_walks s k' ≫= extend s
  end.

Definition closedb (s : SpanningTreeNetwork) (w : list link_ref) : bool :=
  match w, last w with
  | i :: _, Some j => bool_decide (owner_of s i = Some (dest s j))
  | _, _ => false
  end.

(** No walk without backtracking has more than [D] links, and none of
    those of at most [D] links is closed. *)
Definition forest_check (s : SpanningTreeNetwork) (D : nat) : bool :=
  bool_decide (nb_walks s (S D) = []) &&
  forallb (λ k, forallb (λ w, negb (closedb s w)) (nb_walks s k)) (seq 1 D).

(** Link [i] is owned by one of the switches [sws]. *)
Definition owned_by (s : SpanningTreeNetwork) (sws : list dpid)
    (i : link_ref) : bool :=
  match owner_of s i with
  | Some d => bool_decide (d ∈ sws)
  | None => false
  end.

(** The active links owned by the switches [sws], as references. *)
Definition active_links (s : SpanningTreeNetwork) (sws : list dpid)
    : list link_ref :=
  filter (λ i, active_at s i = true ∧ owned_by s sws i = true)
         (seq 0 (length (heap s))).

(** A store in which no link has been discovered yet. *)
Definition fresh (s : SpanningTreeNetwork) : Prop :=
  heap s = [] ∧ ∀ d sw, switches s !! d = Some sw → sw_links sw = [].

(** ** Vocabulary for the further properties *)

(** Link [i] belongs to a node of [paths] that has a best neighbour. *)
Definition seen_from (s : SpanningTreeNetwork)
    (paths : list (dpid * option dpid)) (i : link_ref) : Prop :=
  ∃ k b, (k, Some b) ∈ paths ∧ i ∈ links_at s k.

(** Link [i] leads from a node of [paths] to its best neighbour. *)
Definition leads_to_best (s : SpanningTreeNetwork)
    (paths : list (dpid * option dpid)) (i : link_ref) : Prop :=
  ∃ k b, (k, Some b) ∈ paths ∧ i ∈ links_at s k ∧ target_of s i = Some b.

(** Two stores that agree on everything but the log and the bindings of
    [mac] in the MAC tables. *)
Definition same_but_mac (mac : mac_addr) (s s' : SpanningTreeNetwork) : Prop :=
  same_links s s' ∧ ∀ X m, m ≠ mac → mac_at s' X m = mac_at s X m.
(** ** Reasoning about computations *)


Section Preserves.
Context (R : relation SpanningTreeNetwork) `{!PreOrder R}.

Lemma preserves_ret {A} (a : A) : preserves R (mret a).
Proof. intros s o s' [= _ <-]. reflexivity. Qed.

Lemma preserves_raise {A} e : preserves R (@raise A e).
Proof. intros s o s' [= _ <-]. reflexivity. Qed.

Lemma preserves_out_of_fuel {A} : preserves R (@out_of_fuel A).
Proof. intros s o s' [= _ <-]. reflexivity. Qed.

Lemma preserves_get_state : preserves R get_state.
Proof. intros s o s' [= _ <-]. reflexivity. Qed.

Lemma preserves_bind {A B} (m : M A) (f : A → M B) :
  preserves R m → (∀ a, preserves R (f a)) → preserves R (m ≫= f).
Proof.
  intros Hm Hf s o s'. unfold mbind, M_bind.
  destruct (m s) as [[a|e|] s1] eqn:E; intros H.
  - etrans; [eapply Hm, E | eapply Hf, H].
  - injection H as _ <-. eapply Hm, E.
  - injection H as _ <-. eapply Hm, E.
Qed.

Lemma preserves_get_switch d : preserves R (_get_switch d).
Proof. intros s o s' [= _ <-]. reflexivity. Qed.

Lemma preserves_deref i : preserves R (deref i).
Proof.
  intros s o s'. unfold deref.
  destruct (heap s !! i); intros [= _ <-]; reflexivity.
Qed.

Lemma preserves_links_of d : preserves R (links_of d).
Proof.
  apply preserves_bind; [apply preserves_get_switch|].
  intros [sw|]; [apply preserves_ret | apply preserves_raise].
Qed.

Lemma preserves_mapM {A B} (f : A → M B) xs :
  (∀ x, preserves R (f x)) → preserves R (mapM f xs).
Proof.
  intros Hf. induction xs as [|x xs IH]; simpl.
  - apply preserves_ret.
  - apply preserves_bind; [apply Hf|]. intros b.
    apply preserves_bind; [apply IH|]. intros bs. apply preserves_ret.
Qed.

Lemma preserves_link_objects d : preserves R (link_objects d).
Proof.
  apply preserves_bind; [apply preserves_links_of|].
  intros ls. apply preserves_mapM, preserves_deref.
Qed.

Lemma preserves_for_each {A} (body : A → M unit) xs :
  (∀ x, preserves R (body x)) → preserves R (for_each xs body).
Proof.
  intros Hb. induction xs as [|x xs IH]; simpl.
  - apply preserves_ret.
  - apply preserves_bind; [apply Hb | intros _; apply IH].
Qed.

Lemma preserves_foldM {A S} (f : A → S → M S) xs acc :
  (∀ x a, preserves R (f x a)) → preserves R (foldM f xs acc).
Proof.
  intros Hf. revert acc. induction xs as [|x xs IH]; intros acc; simpl.
  - apply preserves_ret.
  - apply preserves_bind; [apply Hf | intros a; apply IH].
Qed.

Lemma preserves_sweep fuel sws added i : preserves R (sweep fuel sws added i).
Proof.
  revert sws added i. induction fuel as [|fuel IH]; intros sws added i; simpl.
  - apply preserves_out_of_fuel.
  - destruct (sws !! i); [|apply preserves_ret].
    apply preserves_bind; [apply preserves_link_objects | intros ls; apply IH].
Qed.

Lemma preserves_build_nodes sws : preserves R (build_nodes sws).
Proof.
  apply preserves_foldM. intros x a.
  apply preserves_bind; [apply preserves_link_objects|]. intros ls.
  destruct (forallb _ _); [apply preserves_ret | apply preserves_raise].
Qed.

(** What remains is specific to the relation: the writes to the active
    flags. *)
Context (R_activate : ∀ i, preserves R (activate i))
        (R_deactivate : ∀ i, preserves R (deactivate i)).

Lemma preserves_classify_link b i acc : preserves R (classify_link b i acc).
Proof.
  destruct acc as [bl dl]. unfold classify_link.
  apply preserves_bind; [apply preserves_deref|]. intros l.
  destruct (bool_decide (link_switch l = b)).
  - apply preserves_bind; [apply R_activate|]. intros _.
    apply preserves_bind; [apply R_activate|]. intros _. apply preserves_ret.
  - destruct (bool_decide _); apply preserves_ret.
Qed.

Lemma preserves_classify_node item acc : preserves R (classify_node item acc).
Proof.
  unfold classify_node. destruct (item.2); [|apply preserves_ret].
  apply preserves_bind; [apply preserves_links_of|]. intros ls.
  apply preserves_foldM. intros; apply preserves_classify_link.
Qed.

Lemma preserves_rebuild fsp fuel start :
  preserves R (_rebuild_spanning_tree fsp fuel start).
Proof.
  unfold _rebuild_spanning_tree.
  apply preserves_bind; [apply preserves_get_state|]. intros s.
  destruct (match start with Some x => Some x | None => root s end);
    [|apply preserves_raise].
  apply preserves_bind; [apply preserves_sweep|]. intros sws.
  apply preserves_bind; [apply preserves_build_nodes|]. intros nodes.
  apply preserves_bind;
    [apply preserves_foldM; intros; apply preserves_classify_node|].
  intros sets. apply preserves_for_each, R_deactivate.
Qed.
End Preserves.


#[global] Instance same_topology_preorder : PreOrder same_topology.
Proof.
  split.
- by intros s.
- intros s1 s2 s3 (?&?&?&?) (?&?&?&?). repeat split; congruence.
Qed.

Lemma set_active_idemp b b' l : set_active b (set_active b' l) = set_active b l.
Proof. by destruct l. Qed.

Lemma fmap_alter_set_active b i (h : list Link) :
  set_active false <$> alter (set_active b) i h = set_active false <$> h.
Proof.
apply list_eq. intros j. rewrite !list_lookup_fmap.
destruct (decide (i = j)) as [->|Hne].
- rewrite list_lookup_alter_eq. destruct (h !! j); simpl; [|done].
  by rewrite set_active_idemp.
- by rewrite list_lookup_alter_ne.
Qed.

Lemma activate_same_topology i : preserves same_topology (activate i).
Proof.
intros s o s' [= _ <-]. repeat split; simpl. apply eq_sym, fmap_alter_set_active.
Qed.

Lemma deactivate_same_topology i : preserves same_topology (deactivate i).
Proof.
intros s o s' [= _ <-]. repeat split; simpl. apply eq_sym, fmap_alter_set_active.
Qed.

Lemma rebuild_same_topology fsp fuel start :
preserves same_topology (_rebuild_spanning_tree fsp fuel start).
Proof.
apply preserves_rebuild;
  [apply _ | apply activate_same_topology | apply deactivate_same_topology].
Qed.

(** ** Inversion of successful runs *)

Lemma bind_Ret_inv {A B} (m : M A) (f : A → M B) s b s' :
  (m ≫= f) s = (Ret b, s') →
  ∃ a s1, m s = (Ret a, s1) ∧ f a s1 = (Ret b, s').
Proof.
  unfold mbind, M_bind. destruct (m s) as [[a|e|] s1]; [eauto|done|done].
Qed.

Lemma bind_Ret {A B} (m : M A) (f : A → M B) s a s1 :
  m s = (Ret a, s1) → (m ≫= f) s = f a s1.
Proof. unfold mbind, M_bind. by intros ->. Qed.

Lemma for_each_app {A} (xs ys : list A) (body : A → M unit) s s1 :
  for_each xs body s = (Ret tt, s1) →
  for_each (xs ++ ys) body s = for_each ys body s1.
Proof.
  revert s. induction xs as [|x xs IH]; intros s; simpl.
  - by intros [= <-].
  - intros H. apply bind_Ret_inv in H as ([] & s0 & Hx & Hxs).
    rewrite (bind_Ret _ _ _ _ _ Hx). by apply IH.
Qed.

(** ** Root selection *)

Definition min_root (r : option dpid) (d : dpid) : option dpid :=
  Some (match r with None => d | Some x => Z.min x d end).

Lemma add_link_root l lp r rp s o s' :
  add_link l lp r rp s = (o, s') → root s' = root s.
Proof.
  unfold add_link. destruct (switches s !! l); [|by intros [= _ <-]].
  destruct (existsb _ _); [by intros [= _ <-]|].
  destruct (_ !! r); by intros [= _ <-].
Qed.

Lemma update_root_spec l r s o s' :
  update_root l r s = (o, s') →
  o = Ret tt ∧ root s' = min_root (min_root (root s) l) r.
Proof.
  unfold update_root, mbind, M_bind, get_state, put_state, mret, M_ret, min_root.
  destruct (root s) as [r0|] eqn:Hr; simpl.
  - case_bool_decide; simpl.
    + case_bool_decide; intros [= <- <-]; simpl; split; try done; f_equal; lia.
    + rewrite Hr. case_bool_decide; intros [= <- <-]; simpl; split; try done;
        rewrite ?Hr; f_equal; lia.
  - case_bool_decide; intros [= <- <-]; simpl; split; try done; f_equal; lia.
Qed.

Lemma handle_LinkDiscoveryEvent_root fsp fuel ev s s' :
  _handle_switch_LinkDiscoveryEvent fsp fuel ev s = (Ret tt, s') →
  root s' = min_root (min_root (root s) (ev_local_switch ev)) (ev_remote_dpid ev).
Proof.
  unfold _handle_switch_LinkDiscoveryEvent, _get_switch.
  intros H. apply bind_Ret_inv in H as (lsw & s0 & [= <- <-] & H).
  destruct (switches s !! ev_local_switch ev); [|done].
  apply bind_Ret_inv in H as (rsw & s0 & [= <- <-] & H).
  destruct (switches s !! ev_remote_dpid ev); [|done].
  apply bind_Ret_inv in H as ([] & s1 & Hadd & H).
  apply bind_Ret_inv in H as ([] & s2 & Hupd & H).
  apply rebuild_same_topology in H as (_ & <- & _).
  apply update_root_spec in Hupd as [_ ->].
  by rewrite (add_link_root _ _ _ _ _ _ _ Hadd).
Qed.

Lemma handle_events_root fsp fuel evs s s' :
  handle_events fsp fuel evs s = (Ret tt, s') →
  root s' = foldl min_root (root s) (endpoints evs).
Proof.
  unfold handle_events. revert s.
  induction evs as [|ev evs IH]; intros s; simpl.
  - by intros [= <-].
  - intros H. apply bind_Ret_inv in H as ([] & s1 & Hev & H).
    apply IH in H as ->.
    by rewrite (handle_LinkDiscoveryEvent_root _ _ _ _ _ Hev).
Qed.

Lemma foldl_min_root_Some r ds :
  ∃ m, foldl min_root (Some r) ds = Some m ∧ (m ≤ r)%Z ∧
       (m = r ∨ m ∈ ds) ∧ ∀ d, d ∈ ds → (m ≤ d)%Z.
Proof.
  revert r. induction ds as [|d ds IH]; intros r; simpl.
  - exists r. split_and!; [done|lia|by left|]. by intros d ?%elem_of_nil.
  - destruct (IH (Z.min r d)) as (m & Hm & Hle & Hin & Hmin).
    exists m. split_and!; [exact Hm|lia| |].
    + destruct Hin as [->|Hin]; [|right; by right].
      destruct (Z.min_spec r d) as [[_ ->]|[_ ->]]; [by left|right; by left].
    + intros d' [->|Hd']%elem_of_cons; [lia|by apply Hmin].
Qed.

Lemma foldl_min_root_None ds :
  ds ≠ [] → ∃ m, foldl min_root None ds = Some m ∧ is_minimum m ds.
Proof.
  destruct ds as [|d ds]; [done|]. intros _. simpl.
  destruct (foldl_min_root_Some d ds) as (m & Hm & Hle & Hin & Hmin).
  exists m. split; [exact Hm|]. split.
  - destruct Hin as [->|Hin]; [by left|by right].
  - intros d' [->|Hd']%elem_of_cons; [done|by apply Hmin].
Qed.

Lemma endpoints_app evs1 evs2 :
  endpoints (evs1 ++ evs2) = endpoints evs1 ++ endpoints evs2.
Proof. unfold endpoints. by rewrite bind_app. Qed.

(** C8.  After a non-empty sequence of successfully processed link-discovery
    events the root is the minimum identifier among the endpoints seen; and
    after any further successfully processed events it is still set, to the
    minimum over everything seen, which is never larger than before. *)
Theorem root_is_minimum fsp fuel evs1 evs2 s s1 s2 :
  root s = None → evs1 ≠ [] →
  handle_events fsp fuel evs1 s = (Ret tt, s1) →
  handle_events fsp fuel evs2 s1 = (Ret tt, s2) →
  ∃ m1 m2, root s1 = Some m1 ∧ is_minimum m1 (endpoints evs1) ∧
           root s2 = Some m2 ∧ is_minimum m2 (endpoints (evs1 ++ evs2)) ∧
           (m2 ≤ m1)%Z.
Proof.
  intros Hnone Hne H1 H2.
  assert (Hne' : endpoints evs1 ≠ []) by (by destruct evs1).
  pose proof (handle_events_root _ _ _ _ _ H1) as Hr1.
  pose proof (handle_events_root _ _ _ _ _ H2) as Hr2.
  rewrite Hnone in Hr1.
  destruct (foldl_min_root_None _ Hne') as (m1 & Hm1 & Hmin1).
  rewrite Hm1 in Hr1. rewrite Hr1 in Hr2.
  destruct (foldl_min_root_Some m1 (endpoints evs2)) as (m2 & Hm2 & Hle & Hin & Hmin2).
  rewrite Hm2 in Hr2. exists m1, m2. split_and!; try done.
  rewrite endpoints_app. destruct Hmin1 as [Hin1 Hmin1]. split.
  - apply elem_of_app. destruct Hin as [->|Hin]; [by left|by right].
  - intros d [Hd|Hd]%elem_of_app; [|by apply Hmin2].
    specialize (Hmin1 d Hd). lia.
Qed.

Lemma root_is_minimum_witness :
  ∃ s1 s2,
    handle_events bfs_shortest_paths 20 [mkLinkEvent 2 1 3 1] four_switches
      = (Ret tt, s1) ∧
    handle_events bfs_shortest_paths 20 [mkLinkEvent 1 1 2 2] s1 = (Ret tt, s2) ∧
    root s1 = Some 2%Z ∧ root s2 = Some 1%Z.
Proof.
  destruct (handle_events bfs_shortest_paths 20 [mkLinkEvent 2 1 3 1] four_switches)
    as [o1 s1] eqn:E1.
  destruct (handle_events bfs_shortest_paths 20 [mkLinkEvent 1 1 2 2] s1)
    as [o2 s2] eqn:E2.
  assert (Ho1 : o1 = Ret tt) by (by vm_compute in E1; injection E1 as <- _).
  assert (Ho2 : o2 = Ret tt).
  { vm_compute in E1. injection E1 as _ <-. by vm_compute in E2; injection E2 as <- _. }
  subst o1 o2. exists s1, s2.
  destruct (root_is_minimum bfs_shortest_paths 20 [mkLinkEvent 2 1 3 1]
              [mkLinkEvent 1 1 2 2] four_switches s1 s2 eq_refl ltac:(done) E1 E2)
    as (m1 & m2 & Hr1 & Hm1 & Hr2 & Hm2 & Hle).
  split_and!; try done.
  - vm_compute in E1. injection E1 as <-. reflexivity.
  - vm_compute in E1. injection E1 as <-. vm_compute in E2. injection E2 as <-.
    reflexivity.
Defined.

(** ** Unknown endpoints *)

(** C6.  A link-discovery event that names an unregistered local or remote
    switch raises, and the store at the raise is the store before the event:
    no link was added, the root is as it was and no rebuild ran. *)
Theorem unknown_endpoint_raises fsp fuel ev s :
  switches s !! ev_local_switch ev = None ∨
  switches s !! ev_remote_dpid ev = None →
  _handle_switch_LinkDiscoveryEvent fsp fuel ev s = (Raise Exception, s).
Proof.
  unfold _handle_switch_LinkDiscoveryEvent, _get_switch, mbind, M_bind.
  intros [H|H].
  - by rewrite H.
  - destruct (switches s !! ev_local_switch ev) eqn:E; [|done]. by rewrite H.
Qed.

Lemma unknown_endpoint_raises_witness :
  switches four_switches !! 99%Z = None ∧
  _handle_switch_LinkDiscoveryEvent bfs_shortest_paths 20
    (mkLinkEvent 1 1 99 1) four_switches = (Raise Exception, four_switches).
Proof.
  split; [reflexivity|].
  apply (unknown_endpoint_raises bfs_shortest_paths 20 (mkLinkEvent 1 1 99 1)).
  right. reflexivity.
Defined.

(** ** Rebuild without a root *)

(** C7, as stated, fails: on the initial controller, where no link was ever
    discovered, a rebuild without start does not return normally. *)
Lemma rebuild_without_root_errors :
  ¬ ∃ fuel s', _rebuild_spanning_tree bfs_shortest_paths fuel None init
               = (Ret tt, s').
Proof. intros (fuel & s' & H). vm_compute in H. discriminate. Qed.

(** C7, amended.  With no start and no root the rebuild mutates nothing and
    raises the attribute error of reading [links] on none. *)
Theorem rebuild_without_root fsp fuel s :
  root s = None →
  _rebuild_spanning_tree fsp fuel None s = (Raise AttributeError, s).
Proof.
  intros H. unfold _rebuild_spanning_tree, mbind, M_bind, get_state.
  by rewrite H.
Qed.

Lemma rebuild_without_root_witness :
  root four_switches = None ∧
  _rebuild_spanning_tree bfs_shortest_paths 20 None four_switches
    = (Raise AttributeError, four_switches).
Proof.
  split; [reflexivity|].
  apply (rebuild_without_root bfs_shortest_paths 20 four_switches). reflexivity.
Defined.

(** ** Rewriting flags *)

Lemma reflag_lookup f h i :
  reflag f h !! i = (λ l, set_active (f i (link_active l)) l) <$> h !! i.
Proof. unfold reflag. by rewrite list_lookup_imap. Qed.

Lemma reflag_length f h : length (reflag f h) = length h.
Proof. unfold reflag. by rewrite length_imap. Qed.

Lemma reflag_ext f g h :
  (∀ i l, h !! i = Some l → f i (link_active l) = g i (link_active l)) →
  reflag f h = reflag g h.
Proof.
  intros H. apply list_eq. intros i. rewrite !reflag_lookup.
  destruct (h !! i) as [l|] eqn:E; simpl; [|done]. by rewrite (H i l E).
Qed.

Lemma reflag_id f h :
  (∀ i l, h !! i = Some l → f i (link_active l) = link_active l) →
  reflag f h = h.
Proof.
  intros H. apply list_eq. intros i. rewrite reflag_lookup.
  destruct (h !! i) as [l|] eqn:E; simpl; [|done].
  rewrite (H i l E). by destruct l.
Qed.

Lemma reflag_reflag f g h :
  reflag f (reflag g h) = reflag (λ i a, f i (g i a)) h.
Proof.
  apply list_eq. intros i. rewrite !reflag_lookup.
  destruct (h !! i) as [l|]; simpl; [|done]. by destruct l.
Qed.

Lemma alter_reflag b j f h :
  alter (set_active b) j (reflag f h)
  = reflag (λ i a, if decide (i = j) then b else f i a) h.
Proof.
  apply list_eq. intros i. rewrite reflag_lookup.
  destruct (decide (j = i)) as [->|Hne].
  - rewrite list_lookup_alter_eq, reflag_lookup.
    destruct (h !! i) as [l|]; simpl; [|done].
    rewrite decide_True by done. by destruct l.
  - rewrite list_lookup_alter_ne, reflag_lookup by done.
    destruct (h !! i) as [l|]; simpl; [|done].
    by rewrite decide_False by done.
Qed.

Lemma set_heap_heap s : set_heap (heap s) s = s.
Proof. by destruct s. Qed.

Lemma set_heap_set_heap h h' s : set_heap h (set_heap h' s) = set_heap h s.
Proof. done. Qed.

(** ** Sets of links closed under reverse *)

Section Reverses.
Context (s : SpanningTreeNetwork).
Hypothesis rev_involutive : ∀ i, rev_of s (rev_of s i) = i.

Lemma elem_of_with_reverses X i :
  i ∈ with_reverses s X ↔ i ∈ X ∨ rev_of s i ∈ X.
Proof.
  unfold with_reverses. rewrite elem_of_union, elem_of_map. split.
  - intros [Hi|(j & -> & Hj)]; [by left|right]. by rewrite rev_involutive.
  - intros [Hi|Hi]; [by left|right]. exists (rev_of s i).
    by rewrite rev_involutive.
Qed.

Lemma with_reverses_closed X i :
  rev_of s i ∈ with_reverses s X ↔ i ∈ with_reverses s X.
Proof. rewrite !elem_of_with_reverses, rev_involutive. tauto. Qed.

Lemma with_reverses_empty : with_reverses s ∅ = ∅.
Proof.
  apply set_eq. intros i. rewrite elem_of_with_reverses, !elem_of_empty. tauto.
Qed.

Lemma with_reverses_union X Y :
  with_reverses s (X ∪ Y) = with_reverses s X ∪ with_reverses s Y.
Proof.
  apply set_eq. intros i.
  rewrite elem_of_union, !elem_of_with_reverses, !elem_of_union. tauto.
Qed.

Lemma with_reverses_singleton i :
  with_reverses s {[i]} = {[i; rev_of s i]}.
Proof.
  apply set_eq. intros j.
  rewrite elem_of_with_reverses, elem_of_union, !elem_of_singleton. split.
  - intros [Hj|Hj]; [by left|right]. by rewrite <- Hj, rev_involutive.
  - intros [Hj| ->]; [by left|right]. by rewrite rev_involutive.
Qed.

End Reverses.

Lemma wf_rev_involutive s : wf s → ∀ i, rev_of s (rev_of s i) = i.
Proof.
  intros Hwf i. unfold rev_of.
  destruct (heap s !! i) as [l|] eqn:E; simpl; [|by rewrite E].
  destruct (wf_reverse s Hwf i l E) as (r & Hr & Hrr & _). by rewrite Hr.
Qed.

(** ** The classification loop *)

Lemma marked_empty s : (∀ i, rev_of s (rev_of s i) = i) → marked s ∅ = s.
Proof.
  intros Hrev. unfold marked. rewrite with_reverses_empty by done.
  rewrite reflag_id; [apply set_heap_heap|].
  intros i l _. unfold new_flag.
  rewrite !decide_False by apply not_elem_of_empty. done.
Qed.

Section ClassifyLoop.
Context (s0 : SpanningTreeNetwork).
Hypothesis rev_involutive : ∀ i, rev_of s0 (rev_of s0 i) = i.

Local Abbreviation wr := (with_reverses s0).

Lemma classify_link_step b i l U E :
  heap s0 !! i = Some l →
  classify_link b i (wr U, wr E ∖ wr U) (marked s0 U)
  = (Ret (wr (if decide (link_switch l = b) then U ∪ {[i]} else U),
          wr (E ∪ {[i]})
          ∖ wr (if decide (link_switch l = b) then U ∪ {[i]} else U)),
     marked s0 (if decide (link_switch l = b) then U ∪ {[i]} else U)).
Proof.
  intros Hl.
  assert (Hrev : link_reverse l = rev_of s0 i) by (unfold rev_of; by rewrite Hl).
  unfold classify_link, deref, mbind, M_bind, marked at 1. simpl.
  rewrite reflag_lookup, Hl. simpl. unfold get_reverse. simpl. rewrite Hrev.
  rewrite !with_reverses_union, with_reverses_singleton by done.
  case_bool_decide as Hb.
  - rewrite decide_True by done.
    unfold activate, mret, M_ret, marked. simpl.
    rewrite !alter_reflag. f_equal.
    + f_equal. rewrite !with_reverses_union, with_reverses_singleton by done.
      f_equal; set_solver.
    + unfold set_heap. simpl. f_equal.
      apply reflag_ext. intros j lj _. unfold new_flag.
      rewrite !with_reverses_union, with_reverses_singleton by done.
      repeat case_decide; set_solver.
  - rewrite decide_False by done.
    case_bool_decide as Hin; unfold mret, M_ret.
    + replace ((wr E ∪ {[i; rev_of s0 i]}) ∖ wr U)
        with ({[i; rev_of s0 i]} ∪ wr E ∖ wr U) by set_solver.
      done.
    + assert (i ∈ wr U ∧ rev_of s0 i ∈ wr U) as [H1 H2].
      { rewrite with_reverses_closed by done.
        destruct (decide (i ∈ wr U)) as [?|Hn1]; [done|].
        destruct Hin. split; [done|]. by rewrite with_reverses_closed. }
      replace ((wr E ∪ {[i; rev_of s0 i]}) ∖ wr U) with (wr E ∖ wr U)
        by set_solver.
      done.
Qed.

Lemma classify_links_run b ls U E :
  Forall (λ i, is_Some (heap s0 !! i)) ls →
  foldM (classify_link b) ls (wr U, wr E ∖ wr U) (marked s0 U)
  = (Ret (wr (U ∪ list_to_set (filter (λ i, target_of s0 i = Some b) ls)),
          wr (E ∪ list_to_set ls)
          ∖ wr (U ∪ list_to_set (filter (λ i, target_of s0 i = Some b) ls))),
     marked s0 (U ∪ list_to_set (filter (λ i, target_of s0 i = Some b) ls))).
Proof.
  intros Hls. revert U E. induction Hls as [|i ls [l Hl] _ IH]; intros U E.
  - simpl. by rewrite !union_empty_r_L.
  - simpl. rewrite (bind_Ret _ _ _ _ _ (classify_link_step b i l U E Hl)).
    rewrite IH. rewrite filter_cons.
    assert (Ht : target_of s0 i = Some (link_switch l))
      by (unfold target_of; by rewrite Hl).
    destruct (decide (link_switch l = b)) as [Hb|Hne].
    + rewrite decide_True by congruence. simpl.
      by rewrite !(assoc_L (∪)).
    + rewrite decide_False by congruence.
      by rewrite !(assoc_L (∪)).
Qed.

Lemma classify_node_step item U E :
  wf s0 →
  (∀ b, item.2 = Some b → is_Some (switches s0 !! item.1)) →
  classify_node item (wr U, wr E ∖ wr U) (marked s0 U)
  = (Ret (wr (U ∪ uplinks_at s0 item),
          wr (E ∪ examined_at s0 item) ∖ wr (U ∪ uplinks_at s0 item)),
     marked s0 (U ∪ uplinks_at s0 item)).
Proof.
  intros Hwf Hreg. unfold classify_node, uplinks_at, examined_at.
  destruct (item.2) as [b|] eqn:Hb.
  - destruct (Hreg b eq_refl) as [sw Hsw].
    unfold links_of, _get_switch. unfold mbind at 1 2, M_bind at 1 2.
    unfold marked at 1. simpl. rewrite Hsw.
    unfold mret at 1, M_ret at 1.
    change (set_heap _ s0) with (marked s0 U).
    unfold links_at. rewrite Hsw. simpl.
    apply classify_links_run. apply Forall_forall. intros i Hi.
    destruct (wf_listed s0 Hwf _ _ _ Hsw Hi) as (l & Hl & _). by exists l.
  - by rewrite !union_empty_r_L.
Qed.

Lemma classify_nodes_run paths U E :
  wf s0 → paths_registered s0 paths →
  foldM classify_node paths (wr U, wr E ∖ wr U) (marked s0 U)
  = (Ret (wr (U ∪ uplinks s0 paths),
          wr (E ∪ examined s0 paths) ∖ wr (U ∪ uplinks s0 paths)),
     marked s0 (U ∪ uplinks s0 paths)).
Proof.
  intros Hwf. revert U E. unfold uplinks, examined.
  induction paths as [|item paths IH]; intros U E Hreg.
  - simpl. by rewrite !union_empty_r_L.
  - assert (Hitem : ∀ b, item.2 = Some b → is_Some (switches s0 !! item.1)).
    { intros b Hb. apply (Hreg item.1 b). destruct item as [x o].
      simpl in *. subst o. by left. }
    simpl. rewrite (bind_Ret _ _ _ _ _ (classify_node_step item U E Hwf Hitem)).
    rewrite IH; [by rewrite !(assoc_L (∪))|].
    intros x b Hx. apply (Hreg x b). by right.
Qed.

End ClassifyLoop.

Lemma classify_node_registered item acc s acc' s' b :
  classify_node item acc s = (Ret acc', s') →
  item.2 = Some b → is_Some (switches s !! item.1).
Proof.
  unfold classify_node. intros H Hb. rewrite Hb in H.
  apply bind_Ret_inv in H as (ls & s1 & H & _).
  unfold links_of, _get_switch, mbind, M_bind in H.
  destruct (switches s !! item.1); [done|discriminate].
Qed.

Lemma classify_nodes_registered paths acc s acc' s' :
  foldM classify_node paths acc s = (Ret acc', s') → paths_registered s paths.
Proof.
  revert acc s. induction paths as [|item paths IH]; intros acc s H x b Hx.
  - by apply elem_of_nil in Hx.
  - simpl in H. apply bind_Ret_inv in H as (acc1 & s1 & H1 & H).
    apply elem_of_cons in Hx as [<-|Hx].
    + by apply (classify_node_registered _ _ _ _ _ b H1).
    + apply (preserves_classify_node same_topology activate_same_topology)
        in H1 as (-> & _).
      by apply (IH _ _ H x b).
Qed.

(** ** The deactivation loop *)

Lemma deactivate_all xs s :
  for_each xs deactivate s
  = (Ret tt,
     set_heap (reflag (λ i a, if decide (i ∈ xs) then false else a) (heap s)) s).
Proof.
  revert s. induction xs as [|x xs IH]; intros s; simpl.
  - unfold mret, M_ret. f_equal. rewrite reflag_id; [by rewrite set_heap_heap|].
    by intros i l _.
  - unfold mbind, M_bind, deactivate at 1. rewrite IH. simpl. f_equal.
    unfold set_heap. simpl. f_equal.
    rewrite <- (reflag_id (λ _ a, a) (heap s)) at 1 by done.
    rewrite alter_reflag, reflag_reflag. apply reflag_ext. intros i l _.
    cbv beta. repeat case_decide; subst; try done; exfalso; set_solver.
Qed.

(** ** The rebuild in closed form *)

Lemma sweep_readonly fuel sws added i s o s' :
  sweep fuel sws added i s = (o, s') → s' = s.
Proof. intros H. symmetry. by apply (preserves_sweep eq) in H. Qed.

Lemma build_nodes_readonly sws s o s' :
  build_nodes sws s = (o, s') → s' = s.
Proof. intros H. symmetry. by apply (preserves_build_nodes eq) in H. Qed.

Lemma new_flag_split B D i a :
  new_flag B D i a
  = if decide (i ∈ elements D) then false else new_flag B ∅ i a.
Proof.
  unfold new_flag. rewrite (decide_False (P := i ∈ (∅ : gset nat)))
    by apply not_elem_of_empty.
  destruct (decide (i ∈ D)) as [Hi|Hi].
  - by rewrite decide_True by (by apply elem_of_elements).
  - rewrite (decide_False (P := i ∈ elements D)); [done|].
    by rewrite elem_of_elements.
Qed.

Lemma rebuild_run fsp fuel start x s sws nodes :
  wf s → start_of start s = Some x →
  sweep fuel [x] ∅ 0 s = (Ret sws, s) →
  build_nodes sws s = (Ret nodes, s) →
  paths_registered s (fsp x nodes) →
  _rebuild_spanning_tree fsp fuel start s = (Ret tt, rebuilt s (fsp x nodes)).
Proof.
  intros Hwf Hstart Hsweep Hnodes Hreg.
  pose proof (wf_rev_involutive s Hwf) as Hrev.
  unfold _rebuild_spanning_tree, get_state. unfold mbind at 1, M_bind at 1.
  fold (start_of start s). rewrite Hstart.
  rewrite (bind_Ret _ _ _ _ _ Hsweep), (bind_Ret _ _ _ _ _ Hnodes).
  pose proof (classify_nodes_run s Hrev (fsp x nodes) ∅ ∅ Hwf Hreg) as Hloop.
  rewrite with_reverses_empty, difference_diag_L, marked_empty in Hloop by done.
  rewrite (bind_Ret _ _ _ _ _ Hloop). simpl.
  rewrite deactivate_all. f_equal. unfold rebuilt, marked, set_heap. simpl.
  f_equal. rewrite reflag_reflag. apply reflag_ext. intros i l _.
  rewrite !union_empty_l_L. symmetry. apply new_flag_split.
Qed.

Lemma rebuild_inv fsp fuel start s s' :
  wf s →
  _rebuild_spanning_tree fsp fuel start s = (Ret tt, s') →
  ∃ x sws nodes,
    start_of start s = Some x ∧
    sweep fuel [x] ∅ 0 s = (Ret sws, s) ∧
    build_nodes sws s = (Ret nodes, s) ∧
    paths_registered s (fsp x nodes) ∧
    s' = rebuilt s (fsp x nodes).
Proof.
  intros Hwf H. pose proof H as H0.
  unfold _rebuild_spanning_tree, get_state in H.
  unfold mbind at 1, M_bind at 1 in H. fold (start_of start s) in H.
  destruct (start_of start s) as [x|] eqn:Hstart; [|discriminate].
  apply bind_Ret_inv in H as (sws & s1 & Hsweep & H).
  pose proof (sweep_readonly _ _ _ _ _ _ _ Hsweep) as ->.
  apply bind_Ret_inv in H as (nodes & s1 & Hnodes & H).
  pose proof (build_nodes_readonly _ _ _ _ Hnodes) as ->.
  apply bind_Ret_inv in H as (sets & s1 & Hloop & H).
  apply classify_nodes_registered in Hloop as Hreg.
  exists x, sws, nodes. split_and!; try done.
  rewrite (rebuild_run fsp fuel start x s sws nodes) in H0 by done.
  by injection H0.
Qed.

(** ** The reading loops *)

Lemma mapM_deref_run ls s :
  mapM deref ls s
  = (match mapM (λ i, heap s !! i) ls with
     | Some xs => Ret xs
     | None => Raise AttributeError
     end, s).
Proof.
  induction ls as [|i ls IH]; [done|].
  cbn [mapM]. unfold mbind at 1, M_bind at 1. unfold deref at 1.
  unfold mbind at 2, option_bind.
  destruct (heap s !! i) as [l|]; [|done].
  unfold mbind at 1, M_bind at 1. rewrite IH.
  destruct (mapM (λ i0, heap s !! i0) ls); reflexivity.
Qed.

Lemma link_objects_run d s : link_objects d s = (objects s d, s).
Proof.
  unfold link_objects, links_of, _get_switch, objects, mbind, M_bind.
  destruct (switches s !! d) as [sw|]; [|done]. simpl.
  by rewrite mapM_deref_run.
Qed.

Lemma fmap_filter_comp {A B} (f : A → B) (P : B → Prop)
    `{!∀ y, Decision (P y)} `{!∀ x, Decision (P (f x))} (l : list A) :
  f <$> filter (λ x, P (f x)) l = filter P (f <$> l).
Proof.
  induction l as [|x l IH]; [done|].
  rewrite fmap_cons, !filter_cons.
  repeat case_decide; try contradiction; csimpl; by rewrite IH.
Qed.

Lemma sweep_run fuel sws added i s :
  sweep fuel sws added i s = (sweep_pure (neighbours s) fuel sws added i, s).
Proof.
  revert sws added i. induction fuel as [|fuel IH]; intros sws added i; [done|].
  simpl. destruct (sws !! i) as [x|]; [|done].
  unfold mbind at 1, M_bind at 1. rewrite link_objects_run.
  unfold neighbours. destruct (objects s x) as [ls| |]; simpl; [|done|done].
  rewrite IH. do 3 f_equal.
  apply (fmap_filter_comp link_switch (λ y, y ∉ {[x]} ∪ added)).
Qed.

Lemma build_nodes_loop_run keys sws nodes s :
  foldM (λ switch nodes,
           links ← link_objects switch;
           if forallb (λ x, bool_decide (link_switch x ∈ keys)) links
           then mret (<[switch := link_switch <$> links]> nodes)
           else raise KeyError) sws nodes s
  = (build_nodes_loop (neighbours s) keys sws nodes, s).
Proof.
  revert nodes. induction sws as [|x sws IH]; intros nodes; [done|].
  cbn [foldM build_nodes_loop].
  unfold mbind, M_bind in *. rewrite link_objects_run.
  unfold neighbours, outcome_bind.
  destruct (objects s x) as [ls| |]; simpl; [|done|done].
  replace (forallb (λ y, bool_decide (y ∈ keys)) (link_switch <$> ls))
    with (forallb (λ x0, bool_decide (link_switch x0 ∈ keys)) ls)
    by (clear; induction ls as [|? ? IHls]; csimpl; [done|by rewrite IHls]).
  destruct (forallb _ ls); [|done]. unfold mret, M_ret. apply IH.
Qed.

Lemma build_nodes_run sws s :
  build_nodes sws s = (build_nodes_pure (neighbours s) sws, s).
Proof. apply build_nodes_loop_run. Qed.

(** ** What depends on the topology only *)

Lemma neighbours_targets s d :
  neighbours s d
  = match switches s !! d with
    | None => Raise AttributeError
    | Some sw =>
        match mapM (target_of s) (sw_links sw) with
        | Some ts => Ret ts
        | None => Raise AttributeError
        end
    end.
Proof.
  unfold neighbours, objects. destruct (switches s !! d) as [sw|]; [|done].
  generalize (sw_links sw). intros ls.
  assert (mapM (target_of s) ls = fmap link_switch <$> mapM (λ i, heap s !! i) ls)
    as ->.
  { induction ls as [|i ls IH]; [done|]. cbn [mapM]. rewrite IH.
    unfold target_of. destruct (heap s !! i); [|done]. simpl.
    destruct (mapM (λ i0, heap s !! i0) ls); reflexivity. }
  destruct (mapM (λ i0, heap s !! i0) ls); reflexivity.
Qed.

Section SameTopology.
Context (s s' : SpanningTreeNetwork).
Hypothesis Hsame : same_topology s s'.

Lemma same_topology_lookup i :
  set_active false <$> heap s !! i = set_active false <$> heap s' !! i.
Proof.
  destruct Hsame as (_ & _ & _ & H). by rewrite <- !list_lookup_fmap, H.
Qed.

Lemma same_topology_lookup_Some i l :
  heap s !! i = Some l →
  ∃ l', heap s' !! i = Some l' ∧ set_active false l' = set_active false l.
Proof.
  intros Hl. pose proof (same_topology_lookup i) as H. rewrite Hl in H.
  destruct (heap s' !! i) as [l'|]; [|done]. exists l'.
  split; [done|]. apply (inj Some). by symmetry.
Qed.

Lemma same_topology_field {A} (f : Link → A) i :
  (∀ l, f (set_active false l) = f l) →
  f <$> heap s !! i = f <$> heap s' !! i.
Proof.
  intros Hf. pose proof (same_topology_lookup i) as H.
  destruct (heap s !! i) as [l|], (heap s' !! i) as [l'|]; try done.
  apply (inj Some) in H. cbn. by rewrite <- (Hf l), <- (Hf l'), H.
Qed.

Lemma same_topology_target_of i : target_of s i = target_of s' i.
Proof. by apply same_topology_field. Qed.

Lemma same_topology_owner_of i : owner_of s i = owner_of s' i.
Proof. by apply same_topology_field. Qed.

Lemma same_topology_rev_of i : rev_of s i = rev_of s' i.
Proof.
  unfold rev_of. pose proof (same_topology_field link_reverse i (λ _, eq_refl)) as H.
  destruct (heap s !! i), (heap s' !! i); by simplify_eq/=.
Qed.

Lemma same_topology_links_at d : links_at s d = links_at s' d.
Proof. unfold links_at. by destruct Hsame as (-> & _). Qed.

Lemma same_topology_neighbours d : neighbours s d = neighbours s' d.
Proof.
  rewrite !neighbours_targets. destruct Hsame as (<- & _).
  destruct (switches s !! d) as [sw|]; [|done].
  by rewrite (mapM_ext _ _ _ same_topology_target_of).
Qed.

Lemma same_topology_with_reverses X :
  with_reverses s X = with_reverses s' X.
Proof.
  unfold with_reverses. f_equal. apply set_eq. intros i.
  rewrite !elem_of_map. by setoid_rewrite same_topology_rev_of.
Qed.

Lemma same_topology_uplinks paths : uplinks s paths = uplinks s' paths.
Proof.
  unfold uplinks. f_equal. apply list_fmap_ext. intros _ item _.
  unfold uplinks_at. destruct (item.2); [|done].
  rewrite same_topology_links_at. f_equal. apply list_filter_iff.
  intros i. by rewrite same_topology_target_of.
Qed.

Lemma same_topology_examined paths : examined s paths = examined s' paths.
Proof.
  unfold examined. f_equal. apply list_fmap_ext. intros _ item _.
  unfold examined_at. by rewrite same_topology_links_at.
Qed.

Lemma same_topology_best_set paths : best_set s paths = best_set s' paths.
Proof.
  unfold best_set. by rewrite same_topology_uplinks, same_topology_with_reverses.
Qed.

Lemma same_topology_dropped_set paths :
  dropped_set s paths = dropped_set s' paths.
Proof.
  unfold dropped_set.
  by rewrite same_topology_examined, same_topology_with_reverses,
    same_topology_best_set.
Qed.

Lemma same_topology_paths_registered paths :
  paths_registered s paths → paths_registered s' paths.
Proof. unfold paths_registered. by destruct Hsame as (<- & _). Qed.

Lemma same_topology_wf : wf s → wf s'.
Proof.
  intros Hwf. pose proof Hsame as (Hsw & _ & _ & _).
  assert (Hback : ∀ i l', heap s' !! i = Some l' →
            ∃ l, heap s !! i = Some l ∧ set_active false l = set_active false l').
  { intros i l' Hl'. pose proof (same_topology_lookup i) as H. rewrite Hl' in H.
    destruct (heap s !! i) as [l|]; [|done]. exists l.
    split; [done|]. by apply (inj Some). }
  split.
  - intros d sw i Hd Hi. rewrite <- Hsw in Hd.
    destruct (wf_listed s Hwf d sw i Hd Hi) as (l & Hl & Ho).
    destruct (same_topology_lookup_Some i l Hl) as (l' & Hl' & He).
    exists l'. split; [done|].
    by rewrite <- Ho; apply (f_equal link_owner) in He.
  - intros i l' Hl'. destruct (Hback i l' Hl') as (l & Hl & He).
    destruct (wf_owned s Hwf i l Hl) as (sw & Hd & Hi).
    exists sw. rewrite <- Hsw. apply (f_equal link_owner) in He. simpl in He.
    by rewrite <- He.
  - intros i l' Hl'. destruct (Hback i l' Hl') as (l & Hl & He).
    destruct (wf_reverse s Hwf i l Hl) as (r & Hr & H1 & H2 & H3 & H4).
    destruct (same_topology_lookup_Some _ r Hr) as (r' & Hr' & Her).
    pose proof (f_equal link_reverse He) as E1.
    pose proof (f_equal link_switch He) as E2.
    pose proof (f_equal link_owner He) as E3.
    pose proof (f_equal link_remote_port He) as E4.
    pose proof (f_equal link_reverse Her) as F1.
    pose proof (f_equal link_switch Her) as F2.
    pose proof (f_equal link_owner Her) as F3.
    pose proof (f_equal link_port Her) as F4.
    simpl in *. exists r'. rewrite <- E1. split_and!; congruence.
  - intros d sw Hd. rewrite <- Hsw in Hd. by apply (wf_nodup s Hwf d).
Qed.

End SameTopology.

Lemma same_topology_reflag f s :
  same_topology s (set_heap (reflag f (heap s)) s).
Proof.
  repeat split. simpl. apply list_eq. intros i.
  rewrite !list_lookup_fmap, reflag_lookup.
  destruct (heap s !! i) as [l|]; simpl; [|done]. by rewrite set_active_idemp.
Qed.

Lemma same_topology_rebuilt s paths : same_topology s (rebuilt s paths).
Proof. apply same_topology_reflag. Qed.

(** ** Checking well-formedness of a concrete store *)

Lemma wf_check_sound s : wf_check s = true → wf s.
Proof.
  unfold wf_check. intros [Hl Hs]%andb_prop.
  rewrite forallb_forall in Hl, Hs.
  assert (Hlink : ∀ i l, heap s !! i = Some l → link_ok s i = true).
  { intros i l Hi. apply Hl, in_seq. apply lookup_lt_Some in Hi. lia. }
  assert (Hsw : ∀ d sw, switches s !! d = Some sw → switch_ok s (d, sw) = true).
  { intros d sw Hd. apply Hs. apply list_elem_of_In.
    by apply elem_of_map_to_list. }
  split.
  - intros d sw i Hd Hi. apply Hsw in Hd. unfold switch_ok in Hd.
    apply andb_prop in Hd as [Hd _]. rewrite forallb_forall in Hd.
    apply list_elem_of_In, Hd in Hi. simpl in Hi.
    destruct (heap s !! i) as [l|]; [|done].
    exists l. split; [done|]. by apply bool_decide_eq_true in Hi.
  - intros i l Hi. pose proof (Hlink i l Hi) as H. unfold link_ok in H.
    rewrite Hi in H. destruct (switches s !! link_owner l) as [sw|]; [|done].
    destruct (heap s !! link_reverse l); [|done].
    rewrite !andb_true_iff, !bool_decide_eq_true in H.
    exists sw. split; [done|]. apply H.
  - intros i l Hi. pose proof (Hlink i l Hi) as H. unfold link_ok in H.
    rewrite Hi in H. destruct (switches s !! link_owner l) as [sw|]; [|done].
    destruct (heap s !! link_reverse l) as [r|]; [|done].
    rewrite !andb_true_iff, !bool_decide_eq_true in H.
    exists r. tauto.
  - intros d sw Hd. apply Hsw in Hd. unfold switch_ok in Hd.
    apply andb_prop in Hd as [_ Hd]. by apply bool_decide_eq_true in Hd.
Qed.

Lemma symmetric_check_sound s : symmetric_check s = true → symmetric s.
Proof.
  unfold symmetric_check. rewrite forallb_forall. intros H i l r Hl Hr.
  apply list_elem_of_lookup_2, list_elem_of_In, H in Hl.
  rewrite Hr in Hl. by apply bool_decide_eq_true in Hl.
Qed.

(** ** Symmetry of the active flags *)

Lemma dropped_set_closed s paths i :
  wf s → rev_of s i ∈ dropped_set s paths ↔ i ∈ dropped_set s paths.
Proof.
  intros Hwf. pose proof (wf_rev_involutive s Hwf) as Hrev.
  unfold dropped_set, best_set.
  by rewrite !elem_of_difference, !with_reverses_closed.
Qed.

Lemma best_set_closed s paths i :
  wf s → rev_of s i ∈ best_set s paths ↔ i ∈ best_set s paths.
Proof.
  intros Hwf. pose proof (wf_rev_involutive s Hwf) as Hrev.
  unfold best_set. by rewrite with_reverses_closed.
Qed.

Lemma new_flag_reverse s paths i a :
  wf s →
  new_flag (best_set s paths) (dropped_set s paths) (rev_of s i) a
  = new_flag (best_set s paths) (dropped_set s paths) i a.
Proof.
  intros Hwf. unfold new_flag.
  pose proof (dropped_set_closed s paths i Hwf).
  pose proof (best_set_closed s paths i Hwf).
  repeat case_decide; tauto.
Qed.

Lemma rebuilt_symmetric s paths : wf s → symmetric s → symmetric (rebuilt s paths).
Proof.
  intros Hwf Hsym i l' r' Hl' Hr'. unfold rebuilt in *. simpl in *.
  rewrite reflag_lookup in Hl'.
  destruct (heap s !! i) as [l|] eqn:Hl; [|done]. simpl in Hl'.
  injection Hl' as <-. simpl in Hr'. rewrite reflag_lookup in Hr'.
  destruct (heap s !! link_reverse l) as [r|] eqn:Hr; [|done].
  injection Hr' as <-. simpl.
  replace (link_reverse l) with (rev_of s i) by (unfold rev_of; by rewrite Hl).
  rewrite new_flag_reverse by done. f_equal. by apply (Hsym i).
Qed.

(** C2.  On a well-formed store in which every link and its reverse agree
    on the active flag, every rebuild that completes leaves every link and
    its reverse in agreement. *)
Theorem rebuild_symmetric fsp fuel start s s' :
  wf s → symmetric s →
  _rebuild_spanning_tree fsp fuel start s = (Ret tt, s') →
  symmetric s'.
Proof.
  intros Hwf Hsym H.
  apply rebuild_inv in H as (x & sws & nodes & _ & _ & _ & _ & ->); [|done].
  by apply rebuilt_symmetric.
Qed.

Lemma rebuild_symmetric_witness :
  ∃ s', _rebuild_spanning_tree bfs_shortest_paths 20 (Some 2%Z) triangle_net
        = (Ret tt, s') ∧ symmetric s'.
Proof.
  eexists. split; [vm_compute; reflexivity|].
  eapply (rebuild_symmetric bfs_shortest_paths 20 (Some 2%Z) triangle_net).
  - apply wf_check_sound. vm_compute. reflexivity.
  - apply symmetric_check_sound. vm_compute. reflexivity.
  - vm_compute. reflexivity.
Defined.

(** ** Idempotence *)

Lemma sweep_pure_ext nb nb' fuel sws added i :
  (∀ d, nb d = nb' d) →
  sweep_pure nb fuel sws added i = sweep_pure nb' fuel sws added i.
Proof.
  intros Hnb. revert sws added i.
  induction fuel as [|fuel IH]; intros sws added i; [done|]. simpl.
  destruct (sws !! i) as [x|]; [|done]. rewrite Hnb.
  destruct (nb' x); simpl; [apply IH|done|done].
Qed.

Lemma build_nodes_pure_ext nb nb' sws :
  (∀ d, nb d = nb' d) → build_nodes_pure nb sws = build_nodes_pure nb' sws.
Proof.
  intros Hnb. unfold build_nodes_pure. generalize (list_to_set sws : gset Z).
  generalize (∅ : gmap Z (list Z)). intros nodes keys. revert nodes.
  induction sws as [|x sws IH]; intros nodes; [done|]. simpl. rewrite Hnb.
  destruct (nb' x); simpl; [|done|done]. destruct (forallb _ _); [apply IH|done].
Qed.

Lemma new_flag_idemp B D i a :
  new_flag B D i (new_flag B D i a) = new_flag B D i a.
Proof. unfold new_flag. by repeat case_decide. Qed.

Lemma rebuilt_rebuilt s paths : rebuilt (rebuilt s paths) paths = rebuilt s paths.
Proof.
  pose proof (same_topology_rebuilt s paths) as Hsame.
  unfold rebuilt at 1.
  rewrite <- (same_topology_best_set _ _ Hsame),
    <- (same_topology_dropped_set _ _ Hsame).
  unfold rebuilt, set_heap. simpl. f_equal.
  rewrite reflag_reflag. apply reflag_ext. intros i l _. apply new_flag_idemp.
Qed.

(** C5.  A rebuild that completes on a well-formed store is a fixed point:
    the same rebuild run again, with no change in between, completes and
    leaves the store, and so every active flag, exactly as the first run
    left it. *)
Theorem rebuild_idempotent fsp fuel start s s1 :
  wf s →
  _rebuild_spanning_tree fsp fuel start s = (Ret tt, s1) →
  _rebuild_spanning_tree fsp fuel start s1 = (Ret tt, s1).
Proof.
  intros Hwf H.
  apply rebuild_inv in H as (x & sws & nodes & Hx & Hsw & Hn & Hreg & ->);
    [|done].
  pose proof (same_topology_rebuilt s (fsp x nodes)) as Hsame.
  rewrite sweep_run in Hsw. rewrite build_nodes_run in Hn.
  injection Hsw as Hsw. injection Hn as Hn.
  rewrite (rebuild_run fsp fuel start x _ sws nodes).
  - by rewrite rebuilt_rebuilt.
  - by apply (same_topology_wf s).
  - unfold start_of in *. by destruct Hsame as (_ & <- & _).
  - rewrite sweep_run. f_equal. rewrite <- Hsw. apply sweep_pure_ext.
    intros d. symmetry. by apply same_topology_neighbours.
  - rewrite build_nodes_run. f_equal. rewrite <- Hn. apply build_nodes_pure_ext.
    intros d. symmetry. by apply same_topology_neighbours.
  - by apply (same_topology_paths_registered s).
Qed.

Lemma rebuild_idempotent_witness :
  ∃ s1, _rebuild_spanning_tree bfs_shortest_paths 20 (Some 2%Z) triangle_net
        = (Ret tt, s1) ∧
        s1 ≠ triangle_net ∧
        _rebuild_spanning_tree bfs_shortest_paths 20 (Some 2%Z) s1 = (Ret tt, s1).
Proof.
  eexists. split; [vm_compute; reflexivity|]. split.
  - intros H. apply (f_equal (λ s, link_active <$> heap s)) in H.
    vm_compute in H. discriminate.
  - apply (rebuild_idempotent bfs_shortest_paths 20 (Some 2%Z) triangle_net).
    + apply wf_check_sound. vm_compute. reflexivity.
    + vm_compute. reflexivity.
Defined.

(** ** The worklist loop terminates *)

Arguments pending_work : simpl never.

Section Sweep.
Context (nb : dpid → outcome (list dpid)) (U : gset dpid) (deg : nat).
Hypothesis nb_ok :
  ∀ d, d ∈ U → ∃ ts, nb d = Ret ts ∧ length ts ≤ deg ∧ ∀ y, y ∈ ts → y ∈ U.

Lemma work_bound_S k : work_bound deg k ≤ work_bound deg (S k).
Proof.
  induction k as [|k IH]; [simpl; lia|].
  change (S (deg * work_bound deg k) ≤ S (deg * work_bound deg (S k))).
  apply le_n_S, Nat.mul_le_mono_l, IH.
Qed.

Lemma work_bound_mono k k' : k ≤ k' → work_bound deg k ≤ work_bound deg k'.
Proof.
  intros H. induction H as [|k' _ IH]; [done|].
  etrans; [apply IH|apply work_bound_S].
Qed.

Lemma pending_work_mono added added' z :
  added ⊆ added' → pending_work deg U added' z ≤ pending_work deg U added z.
Proof.
  intros H. unfold pending_work.
  assert (size (U ∖ ({[z]} ∪ added')) ≤ size (U ∖ ({[z]} ∪ added)))
    by (apply subseteq_size; set_solver).
  pose proof (work_bound_mono _ _ H0). nia.
Qed.

Lemma pending_work_spawned added y :
  y ∈ U → y ∉ added →
  pending_work deg U added y ≤ work_bound deg (size (U ∖ added)).
Proof.
  intros HU Hy. unfold pending_work.
  assert (Hlt : size (U ∖ ({[y]} ∪ added)) < size (U ∖ added))
    by (apply subset_size; set_solver).
  revert Hlt. destruct (size (U ∖ added)) as [|k]; intros Hlt; [lia|]. simpl.
  assert (work_bound deg (size (U ∖ ({[y]} ∪ added))) ≤ work_bound deg k)
    by (apply work_bound_mono; lia).
  nia.
Qed.

Lemma sum_pending_mono added added' zs :
  added ⊆ added' →
  sum_list_with (pending_work deg U added') zs
  ≤ sum_list_with (pending_work deg U added) zs.
Proof.
  intros H. induction zs as [|z zs IH]; cbn [sum_list_with]; [done|].
  pose proof (pending_work_mono _ _ z H). lia.
Qed.

Lemma sum_pending_spawned added ys :
  Forall (λ y, y ∈ U ∧ y ∉ added) ys →
  sum_list_with (pending_work deg U added) ys
  ≤ length ys * work_bound deg (size (U ∖ added)).
Proof.
  induction 1 as [|y ys [HU Hy] _ IH]; cbn [sum_list_with length]; [done|].
  pose proof (pending_work_spawned added y HU Hy). lia.
Qed.

Lemma sweep_pure_terminates fuel sws added i :
  Forall (λ z, z ∈ U) (drop i sws) →
  sum_list_with (pending_work deg U added) (drop i sws) < fuel →
  ∃ r, sweep_pure nb fuel sws added i = Ret r.
Proof.
  revert sws added i. induction fuel as [|fuel IH]; intros sws added i HU Hlt;
    [lia|].
  simpl. destruct (sws !! i) as [x|] eqn:Hx; [|by eexists].
  rewrite (drop_S _ _ _ Hx) in HU, Hlt. apply Forall_cons in HU as [HxU HU].
  destruct (nb_ok x HxU) as (ts & -> & Hlen & Hts). simpl.
  set (added' := {[x]} ∪ added). set (ys := filter (λ y, y ∉ added') ts).
  assert (Hys : Forall (λ y, y ∈ U ∧ y ∉ added') ys).
  { apply Forall_forall. intros y [Hy1 Hy2]%list_elem_of_filter. auto. }
  apply IH.
  - rewrite drop_app_le by (apply lookup_lt_Some in Hx; lia).
    apply Forall_app. split; [done|]. eapply Forall_impl; [exact Hys|].
    by intros y [? _].
  - rewrite drop_app_le by (apply lookup_lt_Some in Hx; lia).
    rewrite sum_list_with_app. cbn [sum_list_with] in Hlt.
    pose proof (sum_pending_mono added added' (drop (S i) sws)
                  ltac:(set_solver)) as H1.
    pose proof (sum_pending_spawned added' ys Hys) as H2.
    assert (length ys ≤ deg).
    { etrans; [apply length_filter|done]. }
    unfold pending_work at 1 in Hlt. fold added' in Hlt.
    assert (length ys * work_bound deg (size (U ∖ added'))
            ≤ deg * work_bound deg (size (U ∖ added'))) by nia.
    lia.
Qed.

Lemma sweep_pure_fuel_mono fuel fuel' sws added i r :
  sweep_pure nb fuel sws added i = Ret r → fuel ≤ fuel' →
  sweep_pure nb fuel' sws added i = Ret r.
Proof.
  revert fuel' sws added i. induction fuel as [|fuel IH];
    intros fuel' sws added i H Hle; [done|].
  destruct fuel' as [|fuel']; [lia|]. simpl in *.
  destruct (sws !! i) as [x|]; [|done].
  destruct (nb x) as [ts| |]; simpl in *; [|done|done].
  apply IH; [done|lia].
Qed.

End Sweep.

(** ** What the worklist loop collects *)

Section SweepResult.
Context (nb : dpid → outcome (list dpid)).

Lemma sweep_pure_sound x fuel sws added i r :
  sweep_pure nb fuel sws added i = Ret r →
  Forall (rtc (nb_step nb) x) sws → Forall (rtc (nb_step nb) x) r.
Proof.
  revert sws added i. induction fuel as [|fuel IH]; intros sws added i H Hsws;
    [done|].
  simpl in H. destruct (sws !! i) as [a|] eqn:Ha; [|by injection H as <-].
  destruct (nb a) as [ts| |] eqn:Hts; simpl in H; [|done|done].
  apply IH in H; [done|]. apply Forall_app. split; [done|].
  apply Forall_forall. intros y [_ Hy]%list_elem_of_filter.
  eapply rtc_r.
  - eapply Forall_forall; [exact Hsws|]. by eapply list_elem_of_lookup_2.
  - by exists ts.
Qed.

(** The invariant of the loop: [added] holds the switches before position
    [i], and the neighbours of each of them are in the list. *)
Definition sweep_inv (sws : list dpid) (added : gset dpid) (i : nat) : Prop :=
  i ≤ length sws ∧
  (∀ a, a ∈ added ↔ a ∈ take i sws) ∧
  ∀ a, a ∈ added → ∃ ts, nb a = Ret ts ∧ ∀ b, b ∈ ts → b ∈ sws.

Lemma sweep_pure_closed fuel sws added i r :
  sweep_pure nb fuel sws added i = Ret r →
  sweep_inv sws added i →
  sws `prefix_of` r ∧
  ∀ a, a ∈ r → ∃ ts, nb a = Ret ts ∧ ∀ b, b ∈ ts → b ∈ r.
Proof.
  revert sws added i. induction fuel as [|fuel IH];
    intros sws added i H (Hi & Hadded & Hcl); [done|].
  simpl in H. destruct (sws !! i) as [x|] eqn:Hx.
  - destruct (nb x) as [ts| |] eqn:Hts; simpl in H; [|done|done].
    apply lookup_lt_Some in Hx as Hlt.
    apply IH in H as [Hpre H].
    { split; [|done]. etrans; [|exact Hpre]. by apply prefix_app_r. }
    split_and!.
    + rewrite length_app. lia.
    + intros a. rewrite take_app_le by lia.
      rewrite (take_S_r _ _ _ Hx), elem_of_app, list_elem_of_singleton.
      rewrite elem_of_union, elem_of_singleton, Hadded. tauto.
    + intros a [->%elem_of_singleton|Ha]%elem_of_union.
      * exists ts. split; [done|]. intros b Hb. apply elem_of_app.
        destruct (decide (b ∈ {[x]} ∪ added)) as [Hin|Hout].
        -- left. apply elem_of_union in Hin as [->%elem_of_singleton|Hin].
           ++ by eapply list_elem_of_lookup_2.
           ++ apply Hadded, elem_of_take in Hin as (j & Hj & _).
              by eapply list_elem_of_lookup_2.
        -- right. by apply list_elem_of_filter.
      * destruct (Hcl a Ha) as (ta & Hta & Hin). exists ta. split; [done|].
        intros b Hb. apply elem_of_app. left. by apply Hin.
  - injection H as <-. split; [done|]. intros a Ha. apply Hcl, Hadded.
    apply lookup_ge_None in Hx. by rewrite take_ge by lia.
Qed.

Lemma sweep_inv_init x : sweep_inv [x] ∅ 0.
Proof.
  split_and!; [simpl; lia| |].
  - intros a. rewrite take_0. split; [by intros ?%not_elem_of_empty|].
    by intros ?%not_elem_of_nil.
  - by intros a ?%not_elem_of_empty.
Qed.

Lemma build_nodes_loop_total keys sws acc :
  (∀ a, a ∈ sws → ∃ ts, nb a = Ret ts ∧ ∀ b, b ∈ ts → b ∈ keys) →
  ∃ nodes,
    build_nodes_loop nb keys sws acc = Ret nodes ∧
    (∀ a, a ∈ sws → nb a = Ret (default [] (nodes !! a)) ∧ is_Some (nodes !! a)) ∧
    (∀ a, a ∉ sws → nodes !! a = acc !! a).
Proof.
  revert acc. induction sws as [|x sws IH]; intros acc Hsws.
  - exists acc. split_and!; [done| |done]. by intros a ?%not_elem_of_nil.
  - destruct (Hsws x) as (ts & Hts & Hin); [by left|].
    simpl. rewrite Hts. simpl.
    assert (forallb (λ y, bool_decide (y ∈ keys)) ts = true) as ->.
    { apply forallb_forall. intros y Hy%list_elem_of_In.
      by apply bool_decide_eq_true, Hin. }
    destruct (IH (<[x := ts]> acc)) as (nodes & Hn & Hin' & Hout).
    { intros a Ha. apply Hsws. by right. }
    exists nodes. split_and!; [done| |].
    + intros a [->|Ha]%elem_of_cons; [|by apply Hin'].
      destruct (decide (x ∈ sws)) as [Hx|Hx]; [by apply Hin'|].
      rewrite (Hout x Hx), lookup_insert_eq. by split.
    + intros a Ha. apply not_elem_of_cons in Ha as [Hne Ha].
      by rewrite (Hout a Ha), lookup_insert_ne.
Qed.

End SweepResult.

(** ** The reachability loop on a well-formed store *)

Lemma neighbours_Ret_targets s d ts :
  neighbours s d = Ret ts → ts = targets s d ∧ is_Some (switches s !! d).
Proof.
  rewrite neighbours_targets. unfold targets, links_at.
  destruct (switches s !! d) as [sw|]; [|done]. simpl.
  generalize (sw_links sw). intros ls H. split; [|by eexists].
  destruct (mapM (target_of s) ls) as [ts'|] eqn:E; [|done].
  injection H as ->. apply mapM_Some in E.
  induction E as [|i t ls ts Hi _ IH]; [done|]. simpl. by rewrite Hi, IH.
Qed.

Lemma nb_step_linked s a b : nb_step (neighbours s) a b → linked s a b.
Proof.
  intros (ts & Hts & Hb). apply neighbours_Ret_targets in Hts as [-> _]. done.
Qed.

Lemma max_degree_ge s d sw :
  switches s !! d = Some sw → length (sw_links sw) ≤ max_degree s.
Proof.
  intros Hd. unfold max_degree. apply max_list_elem_of_le.
  apply list_elem_of_fmap. exists (d, sw). split; [done|].
  by apply elem_of_map_to_list.
Qed.

Lemma wf_target_registered s i l :
  wf s → heap s !! i = Some l → is_Some (switches s !! link_switch l).
Proof.
  intros Hwf Hl.
  destruct (wf_reverse s Hwf i l Hl) as (r & Hr & _ & Ho & _).
  destruct (wf_owned s Hwf _ r Hr) as (sw & Hsw & _).
  rewrite <- Ho. by eexists.
Qed.

Lemma wf_neighbours s d :
  wf s → d ∈ dom (switches s) →
  ∃ ts, neighbours s d = Ret ts ∧ length ts ≤ max_degree s ∧
        ∀ y, y ∈ ts → y ∈ dom (switches s).
Proof.
  intros Hwf [sw Hsw]%elem_of_dom. rewrite neighbours_targets, Hsw.
  destruct (mapM (target_of s) (sw_links sw)) as [ts|] eqn:E.
  - exists ts. split; [done|]. apply mapM_Some in E. split.
    + rewrite <- (Forall2_length _ _ _ E). by eapply max_degree_ge.
    + intros y Hy. apply list_elem_of_lookup in Hy as [j Hj].
      destruct (Forall2_lookup_r _ _ _ _ _ E Hj) as (i & _ & Hi).
      unfold target_of in Hi. destruct (heap s !! i) as [l|] eqn:Hl; [|done].
      injection Hi as <-. apply elem_of_dom. by eapply wf_target_registered.
  - exfalso. apply mapM_None, Exists_exists in E as (i & Hi & Hnone).
    destruct (wf_listed s Hwf d sw i Hsw Hi) as (l & Hl & _).
    unfold target_of in Hnone. by rewrite Hl in Hnone.
Qed.

Lemma sweep_scope s x fuel sws :
  sweep_pure (neighbours s) fuel [x] ∅ 0 = Ret sws →
  (∀ a, a ∈ sws ↔ reachable s x a) ∧
  (∀ a, a ∈ sws →
     ∃ ts, neighbours s a = Ret ts ∧ ∀ b, b ∈ ts → b ∈ sws).
Proof.
  intros Hsws.
  destruct (sweep_pure_closed _ _ _ _ _ _ Hsws (sweep_inv_init _ x))
    as [Hpre Hcl].
  split; [|done]. intros a. split.
  - intros Ha.
    assert (Hs : Forall (rtc (nb_step (neighbours s)) x) sws).
    { eapply sweep_pure_sound; [exact Hsws|]. by apply Forall_singleton. }
    rewrite Forall_forall in Hs. specialize (Hs a Ha).
    eapply rtc_subrel; [|exact Hs]. intros ??. apply nb_step_linked.
  - revert a. apply rtc_ind_r.
    + destruct Hpre as [k ->]. by left.
    + intros a b _ Hab IH. destruct (Hcl a IH) as (ts & Hts & Hin). apply Hin.
      apply neighbours_Ret_targets in Hts as [-> _]. exact Hab.
Qed.

Lemma sweep_total s x fuel :
  wf s → is_Some (switches s !! x) → sweep_fuel s ≤ fuel →
  ∃ sws, sweep_pure (neighbours s) fuel [x] ∅ 0 = Ret sws.
Proof.
  intros Hwf Hx Hfuel. apply elem_of_dom in Hx.
  destruct (sweep_pure_terminates (neighbours s) (dom (switches s))
              (max_degree s) (λ d, wf_neighbours s d Hwf) (sweep_fuel s) [x] ∅ 0)
    as [sws Hsws].
  { simpl. by apply Forall_singleton. }
  { cbn [drop sum_list_with]. unfold pending_work, sweep_fuel.
    assert (work_bound (max_degree s) (size (dom (switches s) ∖ ({[x]} ∪ ∅)))
            ≤ work_bound (max_degree s) (size (dom (switches s)))).
    { apply work_bound_mono, subseteq_size. set_solver. }
    nia. }
  apply (sweep_pure_fuel_mono _ _ fuel) in Hsws; [|done]. by exists sws.
Qed.

(** Reachability is decided by running the loop. *)
Lemma not_reachable_by_sweep s x y fuel sws :
  sweep_pure (neighbours s) fuel [x] ∅ 0 = Ret sws →
  y ∉ sws → ¬ reachable s x y.
Proof. intros Hsws Hy Hr. by apply Hy, (sweep_scope s x fuel sws Hsws). Qed.

Lemma build_nodes_total s x sws :
  (∀ a, a ∈ sws ↔ reachable s x a) →
  (∀ a, a ∈ sws → ∃ ts, neighbours s a = Ret ts ∧ ∀ b, b ∈ ts → b ∈ sws) →
  ∃ nodes,
    build_nodes_pure (neighbours s) sws = Ret nodes ∧
    rebuild_scope s x sws nodes.
Proof.
  intros Hreach Hcl.
  destruct (build_nodes_loop_total (neighbours s) (list_to_set sws) sws ∅)
    as (nodes & Hn & Hin & Hout).
  { intros a Ha. destruct (Hcl a Ha) as (ts & Hts & Hb).
    exists ts. split; [done|]. intros b ?. apply elem_of_list_to_set. auto. }
  exists nodes. split; [done|]. split_and!; [done| |].
  - intros a. rewrite elem_of_dom. split.
    + intros Ha. destruct (decide (a ∈ sws)) as [|Hna]; [done|].
      rewrite (Hout a Hna), lookup_empty in Ha. by destruct Ha.
    + intros Ha. by apply Hin.
  - intros a Ha. destruct (Hin a Ha) as [Hnb [ts Hts]].
    rewrite Hts in Hnb. simpl in Hnb.
    apply neighbours_Ret_targets in Hnb as [-> ?]. by split.
Qed.

Lemma rebuild_total fsp start s x fuel :
  wf s → names_given_nodes fsp →
  start_of start s = Some x → is_Some (switches s !! x) →
  sweep_fuel s ≤ fuel →
  ∃ sws nodes,
    rebuild_scope s x sws nodes ∧
    sweep_pure (neighbours s) fuel [x] ∅ 0 = Ret sws ∧
    build_nodes_pure (neighbours s) sws = Ret nodes ∧
    _rebuild_spanning_tree fsp fuel start s = (Ret tt, rebuilt s (fsp x nodes)).
Proof.
  intros Hwf Hfsp Hstart Hx Hfuel.
  destruct (sweep_total s x fuel Hwf Hx Hfuel) as (sws & Hsws).
  destruct (sweep_scope s x fuel sws Hsws) as (Hreach & Hcl).
  destruct (build_nodes_total s x sws Hreach Hcl) as (nodes & Hn & Hscope).
  exists sws, nodes. split_and!; try done.
  apply (rebuild_run fsp fuel start x s sws nodes); try done.
  - by rewrite sweep_run, Hsws.
  - by rewrite build_nodes_run, Hn.
  - intros k b Hk. apply Hfsp in Hk.
    destruct Hscope as (_ & Hdom & Hreg). by apply Hreg, Hdom.
Qed.

(** ** The links a rebuild may touch *)

Lemma elem_of_examined s paths i :
  i ∈ examined s paths ↔ ∃ k b, (k, Some b) ∈ paths ∧ i ∈ links_at s k.
Proof.
  unfold examined. rewrite elem_of_union_list. split.
  - intros (X & HX & Hi). apply list_elem_of_fmap in HX as ([k o] & -> & Hk).
    unfold examined_at in Hi. simpl in Hi. destruct o as [b|].
    + exists k, b. split; [done|]. by apply elem_of_list_to_set in Hi.
    + by apply not_elem_of_empty in Hi.
  - intros (k & b & Hk & Hi). exists (examined_at s (k, Some b)). split.
    + apply list_elem_of_fmap. by exists (k, Some b).
    + unfold examined_at. simpl. by apply elem_of_list_to_set.
Qed.

Lemma elem_of_uplinks s paths i :
  i ∈ uplinks s paths ↔
  ∃ k b, (k, Some b) ∈ paths ∧ i ∈ links_at s k ∧ target_of s i = Some b.
Proof.
  unfold uplinks. rewrite elem_of_union_list. split.
  - intros (X & HX & Hi). apply list_elem_of_fmap in HX as ([k o] & -> & Hk).
    unfold uplinks_at in Hi. simpl in Hi. destruct o as [b|].
    + exists k, b. split; [done|].
      by apply elem_of_list_to_set, list_elem_of_filter in Hi as [? ?].
    + by apply not_elem_of_empty in Hi.
  - intros (k & b & Hk & Hi & Ht). exists (uplinks_at s (k, Some b)). split.
    + apply list_elem_of_fmap. by exists (k, Some b).
    + unfold uplinks_at. simpl.
      by apply elem_of_list_to_set, list_elem_of_filter.
Qed.

Lemma uplinks_examined s paths : uplinks s paths ⊆ examined s paths.
Proof.
  intros i (k & b & Hk & Hi & _)%elem_of_uplinks.
  apply elem_of_examined. by exists k, b.
Qed.

Lemma links_at_owner s k i :
  wf s → i ∈ links_at s k → owner_of s i = Some k.
Proof.
  intros Hwf Hi. unfold links_at in Hi.
  destruct (switches s !! k) as [sw|] eqn:Hk; [|by apply not_elem_of_nil in Hi].
  destruct (wf_listed s Hwf k sw i Hk Hi) as (l & Hl & <-).
  unfold owner_of. by rewrite Hl.
Qed.

Lemma owner_links_at s k i :
  wf s → owner_of s i = Some k → i ∈ links_at s k.
Proof.
  intros Hwf Hi. unfold owner_of in Hi.
  destruct (heap s !! i) as [l|] eqn:Hl; [|done]. injection Hi as <-.
  destruct (wf_owned s Hwf i l Hl) as (sw & Hsw & Hin).
  unfold links_at. by rewrite Hsw.
Qed.

Lemma rev_of_target_owner s i y :
  wf s → owner_of s i = Some y → target_of s (rev_of s i) = Some y.
Proof.
  intros Hwf Hi. unfold owner_of, target_of, rev_of in *.
  destruct (heap s !! i) as [l|] eqn:Hl; [|done]. injection Hi as <-.
  destruct (wf_reverse s Hwf i l Hl) as (r & Hr & _ & _ & Hs & _).
  simpl. by rewrite Hr, <- Hs.
Qed.

Lemma linked_by s k i y :
  i ∈ links_at s k → target_of s i = Some y → linked s k y.
Proof.
  intros Hi Ht. unfold linked, targets. apply list_elem_of_omap. by exists i.
Qed.

(** The links in the best set or in the dropped set are owned by switches
    that are keys of [paths], or that are neighbours of such keys. *)
Lemma touched_near_key s paths i y :
  wf s → owner_of s i = Some y →
  i ∈ with_reverses s (examined s paths) →
  ∃ k b, (k, Some b) ∈ paths ∧ (k = y ∨ linked s k y).
Proof.
  intros Hwf Ho Hi. pose proof (wf_rev_involutive s Hwf) as Hrev.
  rewrite elem_of_with_reverses in Hi by done.
  destruct Hi as [Hi|Hi];
    apply elem_of_examined in Hi as (k & b & Hk & Hi); exists k, b;
    (split; [done|]).
  - left. apply (links_at_owner s k i Hwf) in Hi. congruence.
  - right. eapply linked_by; [exact Hi|]. by apply rev_of_target_owner.
Qed.

Lemma best_dropped_examined s paths i :
  wf s → i ∈ dropped_set s paths ∨ i ∈ best_set s paths →
  i ∈ with_reverses s (examined s paths).
Proof.
  intros Hwf. pose proof (wf_rev_involutive s Hwf) as Hrev.
  unfold dropped_set, best_set. rewrite elem_of_difference.
  rewrite !elem_of_with_reverses by done.
  pose proof (uplinks_examined s paths). set_solver.
Qed.

Lemma rebuilt_untouched s paths i :
  i ∉ with_reverses s (examined s paths) → wf s →
  heap (rebuilt s paths) !! i = heap s !! i.
Proof.
  intros Hi Hwf. unfold rebuilt. simpl. rewrite reflag_lookup.
  destruct (heap s !! i) as [l|]; [|done]. simpl. f_equal.
  unfold new_flag.
  rewrite decide_False
    by (intros ?; apply Hi, best_dropped_examined; auto).
  rewrite decide_False
    by (intros ?; apply Hi, best_dropped_examined; auto).
  by destruct l.
Qed.

(** ** Out of scope, out of reach *)

Lemma bfs_names_given_nodes : names_given_nodes bfs_shortest_paths.
Proof.
  intros x nodes k b Hk. unfold bfs_shortest_paths in Hk.
  apply list_elem_of_fmap in Hk as (k' & [= <- _] & Hk).
  apply list_elem_of_fmap in Hk as ([k'' v] & -> & Hk).
  apply elem_of_map_to_list in Hk. apply elem_of_dom. by eexists.
Qed.

(** C9.  A switch that is not transitively connected to the start switch by
    known links keeps its record and every one of its links as they were,
    and the rebuild returns normally, given enough fuel for the reachability
    loop. *)
Theorem rebuild_frame fsp start s x y fuel :
  wf s → names_given_nodes fsp →
  start_of start s = Some x → is_Some (switches s !! x) →
  ¬ reachable s x y →
  sweep_fuel s ≤ fuel →
  ∃ s', _rebuild_spanning_tree fsp fuel start s = (Ret tt, s') ∧
        switches s' !! y = switches s !! y ∧
        ∀ i, owner_of s i = Some y → heap s' !! i = heap s !! i.
Proof.
  intros Hwf Hfsp Hstart Hx Hy Hfuel.
  destruct (rebuild_total fsp start s x fuel Hwf Hfsp Hstart Hx Hfuel)
    as (sws & nodes & (Hreach & Hdom & _) & _ & _ & Hrun).
  eexists. split; [exact Hrun|]. split; [done|].
  intros i Hi. apply rebuilt_untouched; [|done]. intros Htouched.
  destruct (touched_near_key s _ i y Hwf Hi Htouched) as (k & b & Hk & Hky).
  apply Hfsp, Hdom, Hreach in Hk. apply Hy.
  destruct Hky as [->|Hky]; [done|]. by eapply rtc_r.
Qed.

Lemma rebuild_frame_witness :
  ∃ s', _rebuild_spanning_tree bfs_shortest_paths 100 None line_net = (Ret tt, s') ∧
        switches s' !! 4%Z = switches line_net !! 4%Z ∧
        ∀ i, owner_of line_net i = Some 4%Z → heap s' !! i = heap line_net !! i.
Proof.
  apply (rebuild_frame bfs_shortest_paths None line_net 1 4 100).
  - apply wf_check_sound. vm_compute. reflexivity.
  - apply bfs_names_given_nodes.
  - vm_compute. reflexivity.
  - vm_compute. eexists. reflexivity.
  - apply (not_reachable_by_sweep line_net 1 4 100 [1; 2; 3]%Z).
    + vm_compute. reflexivity.
    + vm_compute. intros H. repeat (inversion H as [|? ? ? H']; clear H; rename H' into H).
  - vm_compute. lia.
Defined.

(** ** MAC-location propagation: what a call leaves alone *)

#[global] Instance same_links_preorder : PreOrder same_links.
Proof.
  split.
  - by intros s.
  - intros s1 s2 s3 (?&?&H12) (?&?&H23). split_and!; [congruence..|].
    intros d. by rewrite H12.
Qed.

Lemma learn_same_links d mac p : preserves same_links (learn_mac_location d mac p).
Proof.
  intros s o s'. unfold learn_mac_location.
  destruct (switches s !! d) as [sw|] eqn:Hd; intros [= _ <-]; [|done].
  split_and!; try done. intros d'. simpl.
  destruct (decide (d = d')) as [<-|Hne].
  - by rewrite lookup_insert_eq, Hd.
  - by rewrite lookup_insert_ne.
Qed.

Lemma preserves_get_put {A} (R : relation SpanningTreeNetwork) `{!PreOrder R}
    (f : SpanningTreeNetwork → SpanningTreeNetwork) (k : M A) :
  (∀ s, R s (f s)) → preserves R k →
  preserves R (s ← get_state; put_state (f s);; k).
Proof.
  intros Hf Hk s o s'. unfold mbind, M_bind, get_state, put_state.
  intros H. etrans; [apply Hf|by eapply Hk].
Qed.

Lemma teach_same_links fuel d mac port :
  preserves same_links (_teach_mac_location fuel d mac port).
Proof.
  revert d port. induction fuel as [|fuel IH]; intros d port; simpl.
  - apply preserves_out_of_fuel, _.
  - apply preserves_get_put; [apply _|done|].
    apply preserves_bind; [apply _|apply learn_same_links|].
    intros _. apply preserves_bind; [apply _|apply preserves_link_objects, _|].
    intros ls. apply preserves_for_each; [apply _|]. intros l.
    apply preserves_bind; [apply _|apply preserves_deref, _|]. intros r. apply IH.
Qed.

Section SameLinks.
Context (s s' : SpanningTreeNetwork).
Hypothesis Hsame : same_links s s'.

Lemma same_links_links_at d : links_at s' d = links_at s d.
Proof.
  destruct Hsame as (_ & _ & H). specialize (H d). unfold links_at.
  destruct (switches s !! d), (switches s' !! d); by simplify_eq/=.
Qed.

Lemma same_links_registered d :
  is_Some (switches s' !! d) ↔ is_Some (switches s !! d).
Proof.
  destruct Hsame as (_ & _ & H). specialize (H d).
  rewrite <- !fmap_is_Some with (f := sw_links). by rewrite H.
Qed.

Lemma same_links_heap : heap s' = heap s.
Proof. by destruct Hsame as (-> & _). Qed.

Lemma same_links_followed d port : followed s' d port = followed s d port.
Proof.
  unfold followed, port_of, active_at.
  by rewrite same_links_links_at, same_links_heap.
Qed.

Lemma same_links_wf : wf s → wf s'.
Proof.
  intros Hwf. pose proof same_links_heap as Hh.
  assert (Hsw : ∀ d sw', switches s' !! d = Some sw' →
            ∃ sw, switches s !! d = Some sw ∧ sw_links sw = sw_links sw').
  { intros d sw' Hd. destruct Hsame as (_ & _ & H). specialize (H d).
    rewrite Hd in H. destruct (switches s !! d) as [sw|]; [|done].
    exists sw. split; [done|]. by injection H. }
  split.
  - intros d sw' i Hd Hi. destruct (Hsw d sw' Hd) as (sw & Hd' & Hl).
    rewrite Hh. rewrite <- Hl in Hi. by apply (wf_listed s Hwf d sw).
  - intros i l Hl. rewrite Hh in Hl.
    destruct (wf_owned s Hwf i l Hl) as (sw & Hd & Hi).
    destruct Hsame as (_ & _ & H). specialize (H (link_owner l)).
    rewrite Hd in H. destruct (switches s' !! link_owner l) as [sw'|]; [|done].
    exists sw'. split; [done|]. injection H as <-. done.
  - intros i l Hl. rewrite Hh in *. by apply (wf_reverse s Hwf).
  - intros d sw' Hd. destruct (Hsw d sw' Hd) as (sw & Hd' & <-).
    by apply (wf_nodup s Hwf d).
Qed.

End SameLinks.

Lemma learned_same_links s d mac port sw :
  switches s !! d = Some sw → same_links s (learned s d mac port sw).
Proof.
  intros Hd. split_and!; try done. intros d'. simpl.
  destruct (decide (d = d')) as [<-|Hne].
  - by rewrite lookup_insert_eq, Hd.
  - by rewrite lookup_insert_ne.
Qed.

(** ** MAC-location propagation: one level of the recursion *)

Lemma for_each_refs {A} (h : list A) (P : A → Prop) `{!∀ l, Decision (P l)}
    (P' : link_ref → Prop) `{!∀ i, Decision (P' i)}
    (body : A → M unit) (body' : link_ref → M unit)
    (I : SpanningTreeNetwork → Prop) refs ls st :
  mapM (λ i, h !! i) refs = Some ls →
  (∀ i l, h !! i = Some l → P l ↔ P' i) →
  (∀ i l s, h !! i = Some l → I s → body l s = body' i s) →
  (∀ i s o s', I s → body' i s = (o, s') → I s') →
  I st →
  for_each (filter P ls) body st = for_each (filter P' refs) body' st.
Proof.
  intros Hls HP Hbody HI. apply mapM_Some in Hls. revert st.
  induction Hls as [|i l refs ls Hi _ IH]; intros st Hst; [done|].
  rewrite !filter_cons. specialize (HP i l Hi).
  destruct (decide (P l)) as [Hp|Hp].
  - rewrite decide_True by tauto. simpl. unfold mbind, M_bind.
    rewrite (Hbody i l st Hi Hst).
    destruct (body' i st) as [[[]|e|] st'] eqn:E; [|done|done].
    apply IH. by eapply HI.
  - rewrite decide_False by tauto. by apply IH.
Qed.

Lemma teach_unfold fuel d mac port s sw :
  wf s → switches s !! d = Some sw →
  _teach_mac_location (S fuel) d mac port s
  = for_each (followed s d port)
      (λ i, _teach_mac_location fuel (dest s i) mac (port_of s (rev_of s i)))
      (learned s d mac port sw).
Proof.
  intros Hwf Hd. cbn [_teach_mac_location].
  unfold mbind at 1 2 3, M_bind at 1 2 3, get_state, put_state.
  unfold learn_mac_location at 1. cbn [switches add_log]. rewrite Hd.
  fold (learned s d mac port sw).
  unfold mbind at 1, M_bind at 1. rewrite link_objects_run.
  unfold objects. cbn [switches learned set_switches heap add_log].
  rewrite lookup_insert_eq. cbn [sw_links].
  destruct (mapM (λ i, heap s !! i) (sw_links sw)) as [ls|] eqn:Hls.
  - unfold followed, links_at. rewrite Hd. cbn [from_option].
    apply (for_each_refs (heap s) _ _ _ _ (λ st, heap st = heap s)
             (sw_links sw) ls); try done.
    + intros i l Hi. unfold port_of, active_at, is_active. rewrite Hi. simpl.
      by rewrite Is_true_true.
    + intros i l st Hi Hst. unfold mbind, M_bind, deref, get_reverse.
      destruct (wf_reverse s Hwf i l Hi) as (r & Hr & _).
      rewrite Hst, Hr. unfold dest, port_of, rev_of. by rewrite Hi; simpl; rewrite Hr.
    + intros i st o st' Hst H. apply teach_same_links in H as (<- & _). done.
  - exfalso. apply mapM_None, Exists_exists in Hls as (i & Hi & Hnone).
    destruct (wf_listed s Hwf d sw i Hd Hi) as (l & Hl & _). congruence.
Qed.

(** ** MAC-location propagation: the walks that are followed *)

Lemma replay_app L1 L2 X m old :
  replay (L1 ++ L2) X m old = replay L2 X m (replay L1 X m old).
Proof. unfold replay. by rewrite foldl_app. Qed.

Lemma arrival_cons s port i w :
  arrival s port (i :: w) = arrival s (port_of s (rev_of s i)) w.
Proof.
  unfold arrival. destruct w as [|j w]; [done|]. rewrite last_cons_cons.
  destruct (last (j :: w)) eqn:E; [done|]. by apply last_None in E.
Qed.

Lemma walk_cons_inv s d i w d' :
  walk s d (i :: w) d' →
  i ∈ links_at s d ∧ active_at s i = true ∧ walk s (dest s i) w d'.
Proof. by inversion 1. Qed.

Lemma walk_nil_inv s d d' : walk s d [] d' → d = d'.
Proof. by inversion 1. Qed.

Lemma elem_of_followed s d port i :
  i ∈ followed s d port ↔
  i ∈ links_at s d ∧ port_of s i ≠ port ∧ active_at s i = true.
Proof. unfold followed. rewrite list_elem_of_filter. tauto. Qed.

Section SameLinksWalks.
Context (t s : SpanningTreeNetwork).
Hypothesis Hsame : same_links t s.

Lemma same_links_dest i : dest s i = dest t i.
Proof. unfold dest. by rewrite (same_links_heap t s). Qed.

Lemma same_links_port_of i : port_of s i = port_of t i.
Proof. unfold port_of. by rewrite (same_links_heap t s). Qed.

Lemma same_links_rev_of i : rev_of s i = rev_of t i.
Proof. unfold rev_of. by rewrite (same_links_heap t s). Qed.

End SameLinksWalks.

Lemma learned_mac_at s d mac port sw X m :
  switches s !! d = Some sw →
  mac_at (learned s d mac port sw) X m
  = replay [(d, mac, port)] X m (mac_at s X m).
Proof.
  intros Hd. unfold mac_at, learned, replay. simpl.
  destruct (decide (d = X)) as [<-|Hne].
  - rewrite lookup_insert_eq, Hd. simpl.
    destruct (decide (mac = m)) as [<-|Hm].
    + by rewrite lookup_insert_eq, decide_True.
    + rewrite lookup_insert_ne by done. rewrite decide_False; [done|].
      by intros [_ ?].
  - rewrite lookup_insert_ne by done. rewrite decide_False; [done|].
    by intros [? _].
Qed.

(** The recursive calls of one level, chained through the links followed. *)
Lemma teach_children t mac fuel (xs : list link_ref) st s' :
  (∀ i s1 s2, same_links t s1 →
     _teach_mac_location fuel (dest t i) mac (port_of t (rev_of t i)) s1
       = (Ret tt, s2) →
     teach_post t mac (dest t i) (port_of t (rev_of t i)) s1 s2) →
  same_links t st →
  for_each xs
    (λ i, _teach_mac_location fuel (dest t i) mac (port_of t (rev_of t i))) st
    = (Ret tt, s') →
  ∃ L, teach_log s' = teach_log st ++ L ∧
       (∀ e, e ∈ L ↔
             ∃ i w X, i ∈ xs ∧ walk t (dest t i) w X ∧
                      off_port t (port_of t (rev_of t i)) w ∧
                      e = (X, mac, arrival t (port_of t (rev_of t i)) w)) ∧
       ∀ X m, mac_at s' X m = replay L X m (mac_at st X m).
Proof.
  intros Hchild. revert st. induction xs as [|i xs IH]; intros st Hst H.
  - injection H as <-. exists []. split_and!.
    + by rewrite app_nil_r.
    + intros e. split; [by intros ?%not_elem_of_nil|].
      by intros (i & w & X & ?%not_elem_of_nil & _).
    + done.
  - simpl in H. apply bind_Ret_inv in H as ([] & s1 & H1 & H).
    pose proof (teach_same_links _ _ _ _ _ _ _ H1) as Hs1.
    destruct (Hchild i st s1 Hst H1) as (L1 & Hlog1 & Hin1 & Htab1).
    destruct (IH s1) as (L2 & Hlog2 & Hin2 & Htab2); [by etrans|done|].
    exists (L1 ++ L2). split_and!.
    + by rewrite Hlog2, Hlog1, (assoc_L (++)).
    + intros e. rewrite elem_of_app, Hin1, Hin2. split.
      * intros [(w & X & ?)|(j & w & X & ? & ?)].
        -- exists i, w, X. split; [by left|done].
        -- exists j, w, X. split; [by right|done].
      * intros (j & w & X & [->|Hj]%elem_of_cons & ?).
        -- left. by exists w, X.
        -- right. by exists j, w, X.
    + intros X m. by rewrite Htab2, Htab1, replay_app.
Qed.

Lemma teach_post_holds mac fuel t d port s s' :
  wf t → same_links t s →
  _teach_mac_location fuel d mac port s = (Ret tt, s') →
  teach_post t mac d port s s'.
Proof.
  intros Hwf. revert d port s s'.
  induction fuel as [|fuel IH]; intros d port s s' Hts H; [done|].
  pose proof (same_links_wf t s Hts Hwf) as Hwfs.
  destruct (switches s !! d) as [sw|] eqn:Hd.
  2:{ cbn [_teach_mac_location] in H.
      unfold mbind, M_bind, get_state, put_state, learn_mac_location in H.
      cbn [switches add_log] in H. by rewrite Hd in H. }
  rewrite (teach_unfold fuel d mac port s sw Hwfs Hd) in H.
  rewrite (same_links_followed t s Hts) in H.
  assert (Hbody :
    (λ i, _teach_mac_location fuel (dest s i) mac (port_of s (rev_of s i)))
    = (λ i, _teach_mac_location fuel (dest t i) mac (port_of t (rev_of t i)))).
  { unfold dest, port_of, rev_of. by rewrite (same_links_heap t s Hts). }
  rewrite Hbody in H. clear Hbody.
  pose proof (learned_same_links s d mac port sw Hd) as Hlearn.
  destruct (teach_children t mac fuel _ _ _ (λ i s1 s2 Hs1, IH _ _ s1 s2 Hs1)
              ltac:(by etrans) H) as (L & Hlog & Hin & Htab).
  exists ((d, mac, port) :: L). split_and!.
  - rewrite Hlog. simpl. by rewrite <- (assoc_L (++)).
  - intros e. rewrite elem_of_cons, Hin. split.
    + intros [->|(i & w & X & Hi & Hw & Hoff & ->)].
      * exists [], d. split_and!; [constructor|done|done].
      * apply elem_of_followed in Hi as (Hi & Hp & Ha).
        exists (i :: w), X. split_and!.
        -- by constructor.
        -- done.
        -- by rewrite arrival_cons.
    + intros (w & X & Hw & Hoff & ->). destruct w as [|i w].
      * left. by apply walk_nil_inv in Hw as <-.
      * right. apply walk_cons_inv in Hw as (Hi & Ha & Hw).
        destruct Hoff as [Hp Hoff]. exists i, w, X. split_and!; try done.
        -- by apply elem_of_followed.
        -- by rewrite arrival_cons.
  - intros X m. rewrite Htab, (learned_mac_at s d mac port sw X m Hd).
    by rewrite <- replay_app.
Qed.

(** ** Walks over active links *)

Lemma nonback_cons s i w :
  nonback s (i :: w) ↔ (∀ j, head w = Some j → j ≠ rev_of s i) ∧ nonback s w.
Proof.
  destruct w as [|j w]; simpl.
  - split; [|done]. intros _. split; [|done]. by intros j.
  - split.
    + intros [Hj Hw]. split; [|done]. by intros j' [= <-].
    + intros [Hj Hw]. split; [|done]. by apply Hj.
Qed.

Lemma nonback_app s w1 w2 :
  nonback s (w1 ++ w2) ↔
  nonback s w1 ∧ nonback s w2 ∧
  ∀ a b, last w1 = Some a → head w2 = Some b → b ≠ rev_of s a.
Proof.
  induction w1 as [|i w1 IH].
  - simpl. split; [|tauto]. intros H. split_and!; [done|done|]. by intros a b.
  - rewrite <- app_comm_cons, !nonback_cons, IH. clear IH.
    destruct w1 as [|j w1].
    + simpl. split.
      * intros (Hh & _ & Hw2 & _). split_and!; try done.
        intros a b [= <-] Hb. by apply Hh.
      * intros (_ & Hw2 & Hj). split_and!; try done.
        intros j Hj'. by apply (Hj i j).
    + rewrite !last_cons_cons. simpl. tauto.
Qed.

Lemma walk_app s d w1 e w2 f :
  walk s d w1 e → walk s e w2 f → walk s d (w1 ++ w2) f.
Proof.
  induction 1 as [|d i w1 e Hi Ha _ IH]; [done|]. intros Hw2. simpl.
  constructor; auto.
Qed.

Lemma walk_app_inv s d w1 w2 f :
  walk s d (w1 ++ w2) f → ∃ e, walk s d w1 e ∧ walk s e w2 f.
Proof.
  revert d. induction w1 as [|i w1 IH]; intros d H.
  - exists d. split; [constructor|done].
  - simpl in H. apply walk_cons_inv in H as (Hi & Ha & H).
    destruct (IH _ H) as (e & H1 & H2). exists e. split; [|done].
    by constructor.
Qed.

Section Tree.
Context (s : SpanningTreeNetwork).
Hypothesis Hwf : wf s.
Hypothesis Hsym : symmetric s.

Lemma links_at_lookup d i :
  i ∈ links_at s d → ∃ l, heap s !! i = Some l ∧ link_owner l = d.
Proof.
  unfold links_at. destruct (switches s !! d) as [sw|] eqn:Hd.
  - intros Hi. by apply (wf_listed s Hwf d sw).
  - by intros ?%not_elem_of_nil.
Qed.

Lemma reverse_link d i :
  i ∈ links_at s d →
  rev_of s i ∈ links_at s (dest s i) ∧ dest s (rev_of s i) = d ∧
  active_at s (rev_of s i) = active_at s i.
Proof.
  intros Hi. destruct (links_at_lookup d i Hi) as (l & Hl & Ho).
  destruct (wf_reverse s Hwf i l Hl) as (r & Hr & Hrr & Hro & Hrs & _).
  unfold rev_of, dest, active_at. rewrite Hl. simpl. rewrite Hr. simpl.
  split_and!.
  - apply owner_links_at; [done|]. unfold owner_of. by rewrite Hr, <- Hro.
  - congruence.
  - symmetry. by apply (Hsym i).
Qed.

Lemma walk_rwalk d w d' : walk s d w d' → walk s d' (rwalk s w) d.
Proof.
  induction 1 as [|d i w d' Hi Ha _ IH]; [constructor|].
  unfold rwalk in *. rewrite fmap_cons, reverse_cons.
  eapply walk_app; [exact IH|].
  destruct (reverse_link d i Hi) as (Hr & Hd & Hact).
  constructor; [done|congruence|]. rewrite Hd. constructor.
Qed.

Lemma rev_of_inj i j : rev_of s i = rev_of s j → i = j.
Proof.
  intros H. rewrite <- (wf_rev_involutive s Hwf i), H.
  apply (wf_rev_involutive s Hwf).
Qed.

Lemma nonback_rwalk w : nonback s w → nonback s (rwalk s w).
Proof.
  induction w as [|i w IH]; [done|]. intros [Hh Hw]%nonback_cons.
  unfold rwalk in *. rewrite fmap_cons, reverse_cons.
  apply nonback_app. split_and!; [by apply IH|done|].
  intros a b Ha [= <-].
  destruct w as [|j w]; [done|].
  rewrite fmap_cons, reverse_cons, last_snoc in Ha. injection Ha as <-.
  rewrite (wf_rev_involutive s Hwf). intros Heq. by apply (Hh j).
Qed.

Lemma rwalk_length w : length (rwalk s w) = length w.
Proof. unfold rwalk. by rewrite length_reverse, length_fmap. Qed.

Lemma walk_last_dest d w i d' : walk s d (w ++ [i]) d' → dest s i = d'.
Proof.
  intros (e & _ & H)%walk_app_inv.
  apply walk_cons_inv in H as (_ & _ & H). by apply walk_nil_inv in H.
Qed.

(** In a forest the walk without backtracking between two switches is
    unique. *)
Lemma walk_unique d w1 w2 d' :
  acyclic s →
  walk s d w1 d' → nonback s w1 → walk s d w2 d' → nonback s w2 → w1 = w2.
Proof.
  intros Hacyc. revert w2 d'.
  induction w1 as [|e1 u1 IH] using rev_ind; intros w2 d' H1 N1 H2 N2.
  - apply walk_nil_inv in H1 as <-. destruct w2 as [|i w2]; [done|].
    by destruct (Hacyc d (i :: w2)).
  - destruct w2 as [|e2 u2 _] using rev_ind.
    { apply walk_nil_inv in H2 as <-. destruct (Hacyc d (u1 ++ [e1])); try done.
      by destruct u1. }
    destruct (decide (e1 = e2)) as [<-|Hne].
    + f_equal. apply walk_app_inv in H1 as (a1 & H1 & H1').
      apply walk_app_inv in H2 as (a2 & H2 & H2').
      apply walk_cons_inv in H1' as (Hi1 & _ & _).
      apply walk_cons_inv in H2' as (Hi2 & _ & _).
      apply (links_at_owner s _ _ Hwf) in Hi1, Hi2.
      assert (a1 = a2) as <- by congruence.
      apply nonback_app in N1 as (N1 & _). apply nonback_app in N2 as (N2 & _).
      by apply (IH u2 a1).
    + exfalso. apply (Hacyc d ((u1 ++ [e1]) ++ rwalk s (u2 ++ [e2]))).
      * by destruct u1.
      * eapply walk_app; [exact H1|]. by apply walk_rwalk.
      * apply nonback_app. split_and!; [done|by apply nonback_rwalk|].
        intros a b Ha Hb. rewrite last_snoc in Ha. injection Ha as <-.
        unfold rwalk in Hb. rewrite fmap_app, reverse_app in Hb.
        simpl in Hb. injection Hb as <-. intros ?%rev_of_inj. done.
Qed.

End Tree.

(** ** MAC-location propagation on a forest *)

Lemma off_port_nonback s port w : off_port s port w → nonback s w.
Proof.
  revert port. induction w as [|i w IH]; intros port; [done|].
  intros [_ Hw]. apply nonback_cons. split; [|by eapply IH].
  intros j Hj. destruct w as [|j' w]; [done|]. injection Hj as ->.
  destruct Hw as [Hp _]. by intros ->.
Qed.

Lemma replay_none L X m old :
  (∀ e, e ∈ L → ¬ (e.1.1 = X ∧ e.1.2 = m)) → replay L X m old = old.
Proof.
  revert old. induction L as [|e L IH]; intros old H; [done|].
  unfold replay. simpl. rewrite decide_False by (apply H; by left).
  apply IH. intros e' He'. apply H. by right.
Qed.

Lemma replay_agree L X m q :
  (∀ e, e ∈ L → e.1.1 = X → e.1.2 = m → e.2 = q) →
  replay L X m (Some q) = Some q.
Proof.
  induction L as [|e L IH]; intros H; [done|].
  unfold replay. simpl. destruct (decide (e.1.1 = X ∧ e.1.2 = m)) as [[H1 H2]|_].
  - rewrite (H e) by (done || by left). apply IH. intros e' He'. apply H. by right.
  - apply IH. intros e' He'. apply H. by right.
Qed.

Lemma replay_some L X m q old :
  (∃ e, e ∈ L ∧ e.1.1 = X ∧ e.1.2 = m) →
  (∀ e, e ∈ L → e.1.1 = X → e.1.2 = m → e.2 = q) →
  replay L X m old = Some q.
Proof.
  revert old. induction L as [|e L IH]; intros old (e0 & He0 & H1 & H2) H.
  { by apply not_elem_of_nil in He0. }
  assert (HL : ∀ e', e' ∈ L → e'.1.1 = X → e'.1.2 = m → e'.2 = q).
  { intros e' He'. apply H. by right. }
  change (replay L X m (if decide (e.1.1 = X ∧ e.1.2 = m) then Some e.2 else old)
          = Some q).
  destruct (decide (e.1.1 = X ∧ e.1.2 = m)) as [[E1 E2]|Hne].
  - rewrite (H e) by (done || by left). by apply replay_agree.
  - apply IH; [|done]. apply elem_of_cons in He0 as [->|He0]; [|by exists e0].
    by destruct Hne.
Qed.

(** C3, amended.  On a well-formed, symmetric store whose active links form
    a forest, a completed [_teach_mac_location _ S mac port] leaves, at the
    end of every walk from [S] over active links that never leaves a switch
    on the port it entered by ([S] counting as entered by [port]), the
    binding of [mac] to the port by which the walk enters that switch: the
    port of the reverse of its last link, and [port] at [S] itself. *)
Theorem teach_reaches fuel d mac port s s' w X :
  wf s → symmetric s → acyclic s →
  _teach_mac_location fuel d mac port s = (Ret tt, s') →
  walk s d w X → off_port s port w →
  mac_at s' X mac = Some (arrival s port w).
Proof.
  intros Hwf Hsym Hacyc H Hw Hoff.
  destruct (teach_post_holds mac fuel s d port s s' Hwf ltac:(done) H)
    as (L & _ & Hin & Htab).
  rewrite Htab. apply replay_some.
  - exists (X, mac, arrival s port w). split; [|done]. apply Hin. by exists w, X.
  - intros e (w' & X' & Hw' & Hoff' & ->)%Hin. simpl. intros -> _.
    f_equal. apply (walk_unique s Hwf Hsym d w' w X); try done.
    + by eapply off_port_nonback.
    + by eapply off_port_nonback.
Qed.

(** ** Checking that the active links form a forest *)

Lemma nb_walks_complete s d w d' :
  wf s → walk s d w d' → nonback s w → w ∈ nb_walks s (length w).
Proof.
  intros Hwf. induction 1 as [|d i w d' Hi Ha Hw IH]; intros Hnb.
  - by left.
  - apply nonback_cons in Hnb as [Hh Hnb]. simpl.
    apply list_elem_of_bind. exists w. split; [|by apply IH].
    unfold extend. apply list_elem_of_fmap. exists i. split; [done|].
    apply list_elem_of_filter. split.
    + unfold extendsb. rewrite Ha. simpl. destruct w as [|j w]; [done|].
      apply walk_cons_inv in Hw as (Hj & _).
      apply (links_at_owner s _ _ Hwf) in Hj.
      rewrite andb_true_iff, !bool_decide_eq_true. split; [done|]. by apply Hh.
    + apply elem_of_seq. destruct (links_at_lookup s Hwf d i Hi) as (l & Hl & _).
      apply lookup_lt_Some in Hl. lia.
Qed.

Lemma walk_last s d w d' j : walk s d w d' → last w = Some j → dest s j = d'.
Proof.
  induction 1 as [|d i w d' Hi Ha Hw IH]; [done|].
  destruct w as [|i' w].
  - intros [= <-]. by apply walk_nil_inv in Hw.
  - rewrite last_cons_cons. apply IH.
Qed.

Lemma closedb_walk s d w :
  wf s → w ≠ [] → walk s d w d → closedb s w = true.
Proof.
  intros Hwf Hne Hw. destruct w as [|i w]; [done|]. unfold closedb.
  destruct (last (i :: w)) as [j|] eqn:Hj; [|by apply last_None in Hj].
  rewrite (walk_last s d _ d j Hw Hj).
  apply walk_cons_inv in Hw as (Hi & _).
  apply bool_decide_eq_true. by apply links_at_owner.
Qed.

Lemma forest_check_sound s D :
  wf s → forest_check s D = true →
  acyclic s ∧ ∀ d w d', walk s d w d' → nonback s w → length w ≤ D.
Proof.
  intros Hwf [Hlong Hclosed]%andb_prop. apply bool_decide_eq_true in Hlong.
  assert (Hbound : ∀ d w d', walk s d w d' → nonback s w → length w ≤ D).
  { intros d w d' Hw Hnb. destruct (decide (length w ≤ D)) as [|Hgt]; [done|].
    exfalso. rewrite <- (take_drop (S D) w) in Hw, Hnb.
    apply walk_app_inv in Hw as (e & Hw & _).
    apply nonback_app in Hnb as (Hnb & _).
    pose proof (nb_walks_complete s d _ e Hwf Hw Hnb) as Hin.
    rewrite length_take_le in Hin by lia. rewrite Hlong in Hin.
    by apply not_elem_of_nil in Hin. }
  split; [|done]. intros d w Hne Hw Hnb.
  pose proof (Hbound d w d Hw Hnb) as Hlen.
  rewrite forallb_forall in Hclosed.
  assert (Hk : In (length w) (seq 1 D)).
  { apply in_seq. destruct w; [done|]. simpl in *. lia. }
  apply Hclosed in Hk. rewrite forallb_forall in Hk.
  pose proof (nb_walks_complete s d w d Hwf Hw Hnb) as Hin.
  apply list_elem_of_In, Hk in Hin. apply negb_true_iff in Hin.
  by rewrite (closedb_walk s d w Hwf Hne Hw) in Hin.
Qed.

(** Removing the backtracking from a walk. *)
Lemma walk_reduce s d w d' :
  wf s → symmetric s → walk s d w d' →
  ∃ w', walk s d w' d' ∧ nonback s w' ∧ length w' ≤ length w.
Proof.
  intros Hwf Hsym. induction 1 as [|d i w d' Hi Ha Hw (w' & Hw' & Hnb & Hlen)].
  - exists []. split_and!; [constructor|done|done].
  - destruct w' as [|j w'].
    + exists [i]. split_and!; [by constructor|done|simpl; lia].
    + destruct (decide (j = rev_of s i)) as [->|Hne].
      * apply walk_cons_inv in Hw' as (_ & _ & Hw').
        destruct (reverse_link s Hwf Hsym d i Hi) as (_ & Hd & _).
        rewrite Hd in Hw'. exists w'. split_and!; [done| |simpl in *; lia].
        by apply nonback_cons in Hnb as [_ ?].
      * exists (i :: j :: w'). split_and!; [by constructor| |simpl in *; lia].
        apply nonback_cons. split; [|done]. by intros j' [= <-].
Qed.

Lemma forest_diameter s D :
  wf s → symmetric s →
  (∀ d w d', walk s d w d' → nonback s w → length w ≤ D) →
  diameter_le s D.
Proof.
  intros Hwf Hsym Hbound d w d' Hw.
  destruct (walk_reduce s d w d' Hwf Hsym Hw) as (w' & Hw' & Hnb & _).
  exists w'. split; [done|]. by eapply Hbound.
Qed.

(** On a forest the walks without backtracking are the shortest ones. *)
Lemma forest_walk_le_diameter s D d w d' :
  wf s → symmetric s → acyclic s → diameter_le s D →
  walk s d w d' → nonback s w → length w ≤ D.
Proof.
  intros Hwf Hsym Hacyc Hdiam Hw Hnb.
  destruct (Hdiam d w d' Hw) as (w1 & Hw1 & Hlen).
  destruct (walk_reduce s d w1 d' Hwf Hsym Hw1) as (w2 & Hw2 & Hnb2 & Hlen2).
  rewrite (walk_unique s Hwf Hsym d w w2 d' Hacyc Hw Hnb Hw2 Hnb2). lia.
Qed.

(** ** MAC-location propagation terminates on a forest *)

Lemma for_each_total {A} (xs : list A) (body : A → M unit)
    (I : SpanningTreeNetwork → Prop) st :
  (∀ x st, x ∈ xs → I st → ∃ st', body x st = (Ret tt, st') ∧ I st') →
  I st → ∃ s', for_each xs body st = (Ret tt, s').
Proof.
  revert st. induction xs as [|x xs IH]; intros st Hbody Hst.
  - by exists st.
  - destruct (Hbody x st) as (st1 & Hx & Hst1); [by left|done|].
    simpl. rewrite (bind_Ret _ _ _ _ _ Hx). apply IH; [|done].
    intros y st' Hy. apply Hbody. by right.
Qed.

Lemma teach_total t mac fuel d port s :
  wf t → same_links t s → is_Some (switches t !! d) →
  (∀ w X, walk t d w X → off_port t port w → length w < fuel) →
  ∃ s', _teach_mac_location fuel d mac port s = (Ret tt, s').
Proof.
  intros Hwf. revert d port s.
  induction fuel as [|fuel IH]; intros d port s Hts Hd Hlen.
  { specialize (Hlen [] d (walk_nil t d) I). simpl in Hlen. lia. }
  pose proof (same_links_wf t s Hts Hwf) as Hwfs.
  apply (same_links_registered t s Hts) in Hd as [sw Hd].
  rewrite (teach_unfold fuel d mac port s sw Hwfs Hd).
  rewrite (same_links_followed t s Hts).
  assert (Hbody :
    (λ i, _teach_mac_location fuel (dest s i) mac (port_of s (rev_of s i)))
    = (λ i, _teach_mac_location fuel (dest t i) mac (port_of t (rev_of t i)))).
  { unfold dest, port_of, rev_of. by rewrite (same_links_heap t s Hts). }
  rewrite Hbody. clear Hbody.
  apply (for_each_total _ _ (same_links t)).
  - intros i st Hi Hst. apply elem_of_followed in Hi as (Hi & Hp & Ha).
    destruct (IH (dest t i) (port_of t (rev_of t i)) st Hst) as [st' Hst'].
    + destruct (links_at_lookup t Hwf d i Hi) as (l & Hl & _).
      unfold dest. rewrite Hl. simpl. by eapply wf_target_registered.
    + intros w X Hw Hoff.
      assert (length (i :: w) < S fuel); [|simpl in *; lia].
      apply (Hlen (i :: w) X); [by constructor|done].
    + exists st'. split; [done|]. etrans; [exact Hst|].
      by eapply teach_same_links.
  - etrans; [exact Hts|]. by apply learned_same_links.
Qed.

(** C4.  On a well-formed, symmetric store whose active links form a
    forest in which any two connected switches are joined by at most [D]
    links, [_teach_mac_location] at a registered switch returns normally
    within [D + 1] nested calls. *)
Theorem teach_terminates D d mac port s :
  wf s → symmetric s → acyclic s → diameter_le s D →
  is_Some (switches s !! d) →
  ∃ s', _teach_mac_location (S D) d mac port s = (Ret tt, s').
Proof.
  intros Hwf Hsym Hacyc Hdiam Hd.
  apply (teach_total s mac (S D) d port s Hwf); [done|done|].
  intros w X Hw Hoff. apply Nat.lt_succ_r.
  eapply forest_walk_le_diameter; eauto using off_port_nonback.
Qed.

Lemma line_net_forest :
  wf line_net ∧ symmetric line_net ∧ acyclic line_net ∧ diameter_le line_net 2.
Proof.
  assert (Hwf : wf line_net) by (apply wf_check_sound; vm_compute; reflexivity).
  assert (Hsym : symmetric line_net)
    by (apply symmetric_check_sound; vm_compute; reflexivity).
  destruct (forest_check_sound line_net 2 Hwf) as [Hacyc Hbound];
    [vm_compute; reflexivity|].
  split_and!; try done. by apply forest_diameter.
Qed.

Lemma teach_terminates_witness :
  ∃ s', _teach_mac_location 3 3 77 5 line_net = (Ret tt, s').
Proof.
  destruct line_net_forest as (Hwf & Hsym & Hacyc & Hdiam).
  apply (teach_terminates 2 3 77 5 line_net Hwf Hsym Hacyc Hdiam).
  vm_compute. eexists. reflexivity.
Defined.

(** Without the forest the recursion has no bound: on the two parallel
    links, both active after the rebuild, no amount of fuel suffices. *)
Lemma teach_diverges_on_parallel_links fuel :
  (_teach_mac_location fuel 1 77 5 parallel_net).1 = OutOfFuel.
Proof.
  assert (Hwf : wf parallel_net) by (apply wf_check_sound; vm_compute; reflexivity).
  assert (H : ∀ fuel d port s, same_links parallel_net s →
            (d = 1 ∨ d = 2)%Z →
            (_teach_mac_location fuel d 77 port s).1 = OutOfFuel).
  { clear fuel. induction fuel as [|fuel IH]; intros d port s Hs Hd; [done|].
    pose proof (same_links_wf _ _ Hs Hwf) as Hwfs.
    assert (is_Some (switches s !! d)) as [sw Hsw].
    { apply (same_links_registered _ _ Hs). destruct Hd as [->| ->]; by eexists. }
    rewrite (teach_unfold fuel d 77 port s sw Hwfs Hsw).
    rewrite (same_links_followed _ _ Hs).
    pose proof (learned_same_links s d 77 port sw Hsw) as Hl.
    assert (Hs' : same_links parallel_net (learned s d 77 port sw)) by by etrans.
    assert (∃ i rest, followed parallel_net d port = i :: rest ∧
                      (dest s i = 1 ∨ dest s i = 2)%Z) as (i & rest & -> & Hi).
    { unfold dest. rewrite (same_links_heap _ _ Hs).
      destruct (decide (port = 1%Z)) as [->|Hp1].
      - destruct Hd as [->| ->]; eexists _, _; (split; [vm_compute; reflexivity|]);
          vm_compute; auto.
      - assert (H0 : port_of parallel_net 0 = 1%Z) by (vm_compute; reflexivity).
        assert (H1 : port_of parallel_net 1 = 1%Z) by (vm_compute; reflexivity).
        assert (A0 : active_at parallel_net 0 = true) by (vm_compute; reflexivity).
        assert (A1 : active_at parallel_net 1 = true) by (vm_compute; reflexivity).
        unfold followed. destruct Hd as [->| ->].
        + replace (links_at parallel_net 1) with [0; 2]
            by (vm_compute; reflexivity).
          rewrite filter_cons, decide_True by (rewrite H0; by split).
          eexists _, _. split; [reflexivity|]. vm_compute; auto.
        + replace (links_at parallel_net 2) with [1; 3]
            by (vm_compute; reflexivity).
          rewrite filter_cons, decide_True by (rewrite H1; by split).
          eexists _, _. split; [reflexivity|]. vm_compute; auto. }
    simpl. unfold mbind, M_bind.
    specialize (IH (dest s i) (port_of s (rev_of s i)) _ Hs' Hi).
    destruct (_teach_mac_location fuel (dest s i) 77 (port_of s (rev_of s i))
                (learned s d 77 port sw)) as [[[]|e|] s1]; simpl in *; done. }
  apply H; [done|by left].
Qed.

(** ** Who is taught *)

(** C10.  A completed call [_teach_mac_location _ d mac port] logs one
    teaching per walk from [d] over active links that never leaves a switch
    on the port it entered by, [d] counting as entered by [port], and
    nothing else: an active link of [d] is followed exactly when its local
    port differs from [port], whatever the origin of [port], and the
    neighbour across it is then taught the port of the reverse link. *)
Theorem teach_log_walks fuel d mac port s s' :
  wf s →
  _teach_mac_location fuel d mac port s = (Ret tt, s') →
  ∃ L, teach_log s' = teach_log s ++ L ∧
       (∀ X m q, (X, m, q) ∈ L ↔
                 m = mac ∧ ∃ w, walk s d w X ∧ off_port s port w ∧
                                q = arrival s port w) ∧
       (∀ i, i ∈ links_at s d → active_at s i = true →
             (port_of s i ≠ port →
              (dest s i, mac, port_of s (rev_of s i)) ∈ L) ∧
             (port_of s i = port → ∀ w, ¬ off_port s port (i :: w))).
Proof.
  intros Hwf H.
  destruct (teach_post_holds mac fuel s d port s s' Hwf ltac:(done) H)
    as (L & Hlog & Hin & _).
  exists L. split; [done|]. split.
  - intros X m q. rewrite Hin. split.
    + intros (w & X' & Hw & Hoff & [= -> -> ->]). split; [done|]. by exists w.
    + intros (-> & w & Hw & Hoff & ->). by exists w, X.
  - intros i Hi Ha. split.
    + intros Hp. apply Hin. exists [i], (dest s i). split_and!.
      * constructor; [done|done|constructor].
      * by split.
      * done.
    + intros Hp w [Hne _]. done.
Qed.

Lemma teach_log_walks_witness :
  ∃ s' L,
    _teach_mac_location 10 2 77 2 line_net = (Ret tt, s') ∧
    teach_log s' = teach_log line_net ++ L ∧
    (2%Z, 77%Z, 2%Z) ∈ L ∧ (1%Z, 77%Z, 1%Z) ∈ L ∧ ∀ q, (3%Z, 77%Z, q) ∉ L.
Proof.
  assert (Hwf : wf line_net) by (apply wf_check_sound; vm_compute; reflexivity).
  destruct (_teach_mac_location 10 2 77 2 line_net) as [o s'] eqn:E.
  assert (o = Ret tt) as -> by (vm_compute in E; by injection E as <- _).
  destruct (teach_log_walks 10 2 77 2 line_net s' Hwf E) as (L & Hlog & Hin & _).
  exists s', L. split_and!; try done.
  - apply Hin. split; [done|]. exists []. split_and!; [constructor|done|done].
  - apply Hin. split; [done|]. exists [1]. split_and!.
    + constructor; [vm_compute; by left|vm_compute; reflexivity|].
      vm_compute dest. constructor.
    + vm_compute. by split.
    + vm_compute. reflexivity.
  - intros q Hq. vm_compute in E. injection E as <-.
    vm_compute in Hlog. subst L.
    repeat (apply elem_of_cons in Hq as [[=]|Hq]). by apply not_elem_of_nil in Hq.
Defined.

(** C3, as stated, fails: on the line 1 - 2 - 3, whose active links form a
    tree, teaching switch 2 with port 2, the port of its active link to
    switch 3, leaves switch 3 without an entry although it is reachable
    from switch 2 over an active link. *)
Lemma teach_misses_neighbour_on_port :
  wf line_net ∧ symmetric line_net ∧ acyclic line_net ∧
  walk line_net 2 [2] 3 ∧
  ∃ s', _teach_mac_location 10 2 77 2 line_net = (Ret tt, s') ∧
        mac_at s' 3 77 = None.
Proof.
  destruct line_net_forest as (Hwf & Hsym & Hacyc & _).
  split_and!; try done.
  - constructor; [vm_compute; right; by left|vm_compute; reflexivity|].
    vm_compute dest. constructor.
  - eexists. split; [vm_compute; reflexivity|]. vm_compute. reflexivity.
Qed.

Lemma teach_reaches_witness :
  ∃ s', _teach_mac_location 10 3 77 5 line_net = (Ret tt, s') ∧
        mac_at s' 3 77 = Some 5%Z ∧ mac_at s' 2 77 = Some 2%Z ∧
        mac_at s' 1 77 = Some 1%Z.
Proof.
  destruct line_net_forest as (Hwf & Hsym & Hacyc & _).
  destruct (_teach_mac_location 10 3 77 5 line_net) as [o s'] eqn:E.
  assert (o = Ret tt) as -> by (vm_compute in E; by injection E as <- _).
  exists s'. split; [done|].
  assert (W1 : walk line_net 3 [3] 2).
  { constructor; [vm_compute; by left|vm_compute; reflexivity|].
    vm_compute dest. constructor. }
  assert (W2 : walk line_net 3 [3; 1] 1).
  { constructor; [vm_compute; by left|vm_compute; reflexivity|].
    vm_compute dest. constructor; [vm_compute; by left|vm_compute; reflexivity|].
    vm_compute dest. constructor. }
  split_and!.
  - apply (teach_reaches 10 3 77 5 line_net s' [] 3 Hwf Hsym Hacyc E);
      [constructor|done].
  - apply (teach_reaches 10 3 77 5 line_net s' [3] 2 Hwf Hsym Hacyc E W1).
    vm_compute. by split.
  - apply (teach_reaches 10 3 77 5 line_net s' [3; 1] 1 Hwf Hsym Hacyc E W2).
    vm_compute. by split_and!.
Defined.

(** ** Parallel links *)

(** C1 at two parallel links: the shortest-path result names the best
    neighbour of switch 2, not a link, and the loop activates every link of
    switch 2 that leads to it.  After the two discoveries the rebuild has
    left all four directed links active: two undirected edges for the two
    switches of the component, and a cycle. *)
Theorem rebuild_activates_parallel_links :
  handle_events bfs_shortest_paths 20
    [mkLinkEvent 1 1 2 1; mkLinkEvent 1 2 2 2] four_switches
    = (Ret tt, parallel_net) ∧
  _rebuild_spanning_tree bfs_shortest_paths 20 None parallel_net
    = (Ret tt, parallel_net) ∧
  sweep_pure (neighbours parallel_net) 20 [1%Z] ∅ 0 = Ret [1%Z; 2%Z; 2%Z] ∧
  active_links parallel_net [1%Z; 2%Z] = [0; 1; 2; 3] ∧
  walk parallel_net 1 [0; 3] 1 ∧ nonback parallel_net [0; 3] ∧
  ¬ acyclic parallel_net.
Proof.
  assert (HW : walk parallel_net 1 [0; 3] 1).
  { constructor; [vm_compute; by left|vm_compute; reflexivity|].
    vm_compute dest.
    constructor; [vm_compute; right; by left|vm_compute; reflexivity|].
    vm_compute dest. constructor. }
  assert (HN : nonback parallel_net [0; 3]) by (vm_compute; by split).
  split_and!; try done; try (vm_compute; reflexivity).
  intros Hacyc. by apply (Hacyc 1%Z [0; 3]).
Qed.

(** ** The stores that the events produce *)

Lemma fresh_wf s : fresh s → wf s.
Proof.
  intros [Hh Hl]. split.
  - intros d sw i Hd Hi. rewrite (Hl d sw Hd) in Hi. by apply not_elem_of_nil in Hi.
  - intros i l Hi. by rewrite Hh in Hi.
  - intros i l Hi. by rewrite Hh in Hi.
  - intros d sw Hd. rewrite (Hl d sw Hd). constructor.
Qed.

Lemma fresh_symmetric s : fresh s → symmetric s.
Proof. intros [Hh _] i l r Hi. by rewrite Hh in Hi. Qed.

Lemma add_link_same_or_new l lp r rp s s' :
  add_link l lp r rp s = (Ret tt, s') →
  s' = s ∨
  ∃ lsw rsw,
    switches s !! l = Some lsw ∧
    <[l := set_links (sw_links lsw ++ [length (heap s)]) lsw]> (switches s) !! r
      = Some rsw ∧
    s' = mkNet
           (<[r := set_links (sw_links rsw ++ [S (length (heap s))]) rsw]>
              (<[l := set_links (sw_links lsw ++ [length (heap s)]) lsw]>
                 (switches s)))
           (heap s ++ [mkLink l lp r rp (S (length (heap s))) false;
                       mkLink r rp l lp (length (heap s)) false])
           (root s) (teach_log s).
Proof.
  unfold add_link. destruct (switches s !! l) as [lsw|] eqn:Hl; [|done].
  destruct (existsb _ _); [intros [= <-]; by left|].
  destruct (_ !! r) as [rsw|] eqn:Hr; [|done].
  intros [= <-]. right. by exists lsw, rsw.
Qed.

Lemma add_link_wf l lp r rp s s' :
  wf s → add_link l lp r rp s = (Ret tt, s') → wf s'.
Proof.
  intros Hwf H.
  apply add_link_same_or_new in H as [->|(lsw & rsw & Hl & Hr & ->)]; [done|].
  set (n := length (heap s)) in *.
  set (fwd := mkLink l lp r rp (S n) false).
  set (bwd := mkLink r rp l lp n false).
  set (m1 := <[l := set_links (sw_links lsw ++ [n]) lsw]> (switches s)) in *.
  set (m2 := <[r := set_links (sw_links rsw ++ [S n]) rsw]> m1).
  assert (Hold : ∀ i x, heap s !! i = Some x → (heap s ++ [fwd; bwd]) !! i = Some x).
  { intros i x Hi. by apply lookup_app_l_Some. }
  assert (Hn : (heap s ++ [fwd; bwd]) !! n = Some fwd).
  { rewrite lookup_app_r by (unfold n; lia). by rewrite Nat.sub_diag. }
  assert (HSn : (heap s ++ [fwd; bwd]) !! S n = Some bwd).
  { rewrite lookup_app_r by (unfold n; lia).
    by replace (S n - length (heap s)) with 1 by (unfold n; lia). }
  (* the links of every switch after the insertion *)
  assert (Hlinks : ∀ d sw', m2 !! d = Some sw' →
            ∃ sw news, (d = l ∨ d = r ∨ switches s !! d = Some sw) ∧
              (d = l → switches s !! l = Some sw) ∧
              (∀ x, switches s !! d = Some x → x = sw) ∧
              is_Some (switches s !! d) ∧
              sw_links sw' = sw_links sw ++ news ∧
              (∀ i, i ∈ news ↔ (i = n ∧ d = l) ∨ (i = S n ∧ d = r)) ∧
              NoDup news).
  { intros d sw' Hd. unfold m2 in Hd.
    destruct (decide (r = d)) as [<-|Hrd].
    - rewrite lookup_insert_eq in Hd. injection Hd as <-. simpl.
      unfold m1 in Hr. destruct (decide (l = r)) as [<-|Hlr].
      + rewrite lookup_insert_eq in Hr. injection Hr as <-. simpl.
        exists lsw, [n; S n]. split_and!; auto.
        * intros x Hx. congruence.
        * by rewrite <- (assoc_L (++)).
        * intros i. rewrite !elem_of_cons, elem_of_nil. naive_solver.
        * repeat constructor; set_solver by lia.
      + rewrite lookup_insert_ne in Hr by done.
        exists rsw, [S n]. split_and!; auto.
        * intros ->. done.
        * intros x Hx. congruence.
        * intros i. rewrite list_elem_of_singleton. naive_solver.
        * repeat constructor. set_solver.
    - rewrite lookup_insert_ne in Hd by done. unfold m1 in Hd.
      destruct (decide (l = d)) as [<-|Hld].
      + rewrite lookup_insert_eq in Hd. injection Hd as <-. simpl.
        exists lsw, [n]. split_and!; auto.
        * intros x Hx. congruence.
        * intros i. rewrite list_elem_of_singleton. naive_solver.
        * repeat constructor. set_solver.
      + rewrite lookup_insert_ne in Hd by done.
        exists sw', []. split_and!; auto.
        * intros ->. done.
        * intros x Hx. congruence.
        * by rewrite app_nil_r.
        * intros i. rewrite elem_of_nil. naive_solver.
        * constructor. }
  assert (Hreg : ∀ d sw, switches s !! d = Some sw →
            ∃ sw', m2 !! d = Some sw' ∧ ∀ i, i ∈ sw_links sw → i ∈ sw_links sw').
  { intros d sw Hd. unfold m2, m1.
    destruct (decide (r = d)) as [<-|Hrd].
    - rewrite lookup_insert_eq. eexists. split; [done|]. simpl.
      intros i Hi. apply elem_of_app. left.
      unfold m1 in Hr. destruct (decide (l = r)) as [<-|Hlr].
      + rewrite lookup_insert_eq in Hr. injection Hr as <-. simpl.
        apply elem_of_app. left. congruence.
      + rewrite lookup_insert_ne in Hr by done. congruence.
    - rewrite lookup_insert_ne by done.
      destruct (decide (l = d)) as [<-|Hld].
      + rewrite lookup_insert_eq. eexists. split; [done|]. simpl.
        intros i Hi. apply elem_of_app. left. congruence.
      + rewrite lookup_insert_ne by done. by exists sw. }
  assert (Hml : ∃ sw', m2 !! l = Some sw' ∧ n ∈ sw_links sw').
  { unfold m2. destruct (decide (r = l)) as [->|Hrl].
    - rewrite lookup_insert_eq. eexists. split; [done|]. simpl.
      unfold m1 in Hr. rewrite lookup_insert_eq in Hr. injection Hr as <-.
      simpl. set_solver.
    - rewrite lookup_insert_ne by done. unfold m1. rewrite lookup_insert_eq.
      eexists. split; [done|]. simpl. set_solver. }
  assert (Hmr : ∃ sw', m2 !! r = Some sw' ∧ S n ∈ sw_links sw').
  { unfold m2. rewrite lookup_insert_eq. eexists. split; [done|]. simpl.
    set_solver. }
  split; simpl.
  - intros d sw' i Hd Hi.
    destruct (Hlinks d sw' Hd) as (sw & news & _ & _ & Huniq & [x Hx] & Heq & Hnews & _).
    rewrite Heq in Hi. apply elem_of_app in Hi as [Hi|Hi].
    + rewrite (Huniq x Hx) in Hx.
      destruct (wf_listed s Hwf d sw i Hx Hi) as (y & Hy & Ho).
      exists y. split; [by apply Hold|done].
    + apply Hnews in Hi as [[-> ->]|[-> ->]]; eexists; (split; [done|done]).
  - intros i x Hi. apply lookup_app_Some in Hi as [Hi|[Hge Hi]].
    + destruct (wf_owned s Hwf i x Hi) as (sw & Hsw & Hin).
      destruct (Hreg _ sw Hsw) as (sw' & Hsw' & Hsub). exists sw'. auto.
    + fold n in Hge, Hi. destruct (i - n) as [|[|k]] eqn:E; simpl in Hi;
        [| |done].
      * injection Hi as <-. simpl. replace i with n by lia. done.
      * injection Hi as <-. simpl. replace i with (S n) by lia. done.
  - intros i x Hi. apply lookup_app_Some in Hi as [Hi|[Hge Hi]].
    + destruct (wf_reverse s Hwf i x Hi) as (y & Hy & ?).
      exists y. split; [by apply Hold|done].
    + fold n in Hge, Hi. destruct (i - n) as [|[|k]] eqn:E; simpl in Hi;
        [| |done].
      * injection Hi as <-. simpl. exists bwd. replace i with n by lia. done.
      * injection Hi as <-. simpl. exists fwd. replace i with (S n) by lia. done.
  - intros d sw' Hd.
    destruct (Hlinks d sw' Hd) as (sw & news & _ & _ & Huniq & [x Hx] & -> & Hnews & Hnd).
    rewrite (Huniq x Hx) in Hx. apply NoDup_app. split_and!.
    + by apply (wf_nodup s Hwf d).
    + intros i Hi Hi'. destruct (wf_listed s Hwf d sw i Hx Hi) as (y & Hy & _).
      apply lookup_lt_Some in Hy. fold n in Hy.
      apply Hnews in Hi' as [[-> _]|[-> _]]; lia.
    + done.
Qed.

(** * Further properties of the controller *)

(** ** The rebuild writes active flags only *)

(** X1.  Whatever its outcome, normal return or exception, a rebuild leaves
    the registry of switches, the root, the log and every field of every
    link other than the active flag as they were. *)
Theorem rebuild_writes_flags_only fsp fuel start s o s' :
  _rebuild_spanning_tree fsp fuel start s = (o, s') →
  switches s' = switches s ∧ root s' = root s ∧ teach_log s' = teach_log s ∧
  length (heap s') = length (heap s) ∧
  ∀ i l', heap s' !! i = Some l' →
    ∃ l, heap s !! i = Some l ∧ l' = set_active (link_active l') l.
Proof.
  intros H. apply rebuild_same_topology in H as Hsame.
  pose proof Hsame as (Hsw & Hr & Hlog & Hh). split_and!; try done.
  - apply (f_equal length) in Hh. by rewrite !length_fmap in Hh.
  - intros i l' Hl'.
    pose proof (same_topology_lookup s s' Hsame i) as Hi. rewrite Hl' in Hi.
    destruct (heap s !! i) as [l|]; [|done]. exists l. split; [done|].
    apply (inj Some) in Hi. destruct l, l'. simpl in *. by simplify_eq.
Qed.

Lemma rebuild_writes_flags_only_witness :
  ∃ s', _rebuild_spanning_tree bfs_shortest_paths 20 (Some 2%Z) triangle_net
          = (Ret tt, s') ∧
        switches s' = switches triangle_net ∧ root s' = root triangle_net.
Proof.
  destruct (_rebuild_spanning_tree bfs_shortest_paths 20 (Some 2%Z) triangle_net)
    as [o s'] eqn:E.
  destruct (rebuild_writes_flags_only _ _ _ _ _ _ E) as (Hsw & Hr & _).
  assert (o = Ret tt) as -> by (vm_compute in E; by injection E as <- _).
  exists s'. split; [reflexivity|]. split; [exact Hsw|exact Hr].
Defined.

(** ** The reachability loop *)

(** X2.  On a well-formed store the worklist loop of lines 35-46, started at
    a registered switch with the fuel [sweep_fuel], returns normally, leaves
    the store alone and collects exactly the switches connected to the start
    by known links (a switch may be listed more than once). *)
Theorem sweep_collects_component s x fuel :
  wf s → is_Some (switches s !! x) → sweep_fuel s ≤ fuel →
  ∃ sws, sweep fuel [x] ∅ 0 s = (Ret sws, s) ∧
         ∀ a, a ∈ sws ↔ reachable s x a.
Proof.
  intros Hwf Hx Hfuel.
  destruct (sweep_total s x fuel Hwf Hx Hfuel) as [sws Hsws].
  exists sws. split; [by rewrite sweep_run, Hsws|].
  by apply (sweep_scope s x fuel sws).
Qed.

Lemma sweep_collects_component_witness :
  ∃ sws, sweep 100 [1%Z] ∅ 0 triangle_net = (Ret sws, triangle_net) ∧
         ∀ a, a ∈ sws ↔ reachable triangle_net 1%Z a.
Proof.
  apply (sweep_collects_component triangle_net 1 100).
  - apply wf_check_sound. vm_compute. reflexivity.
  - vm_compute. eexists. reflexivity.
  - vm_compute. lia.
Defined.

(** ** The node graph *)

(** X3.  On the switches collected by the reachability loop, the
    construction of the node graph of lines 49-52 raises no [KeyError]: it
    returns one node per collected switch, whose neighbour list is the list
    of the targets of the links of that switch, in link order. *)
Theorem build_nodes_mirrors_links s x fuel sws :
  sweep fuel [x] ∅ 0 s = (Ret sws, s) →
  ∃ nodes, build_nodes sws s = (Ret nodes, s) ∧
           (∀ a, a ∈ dom nodes ↔ a ∈ sws) ∧
           ∀ a, a ∈ sws → nodes !! a = Some (targets s a).
Proof.
  intros H. rewrite sweep_run in H. injection H as H.
  destruct (sweep_scope s x fuel sws H) as (Hreach & Hcl).
  destruct (build_nodes_total s x sws Hreach Hcl) as (nodes & Hn & _ & Hdom & Hnb).
  exists nodes. split; [by rewrite build_nodes_run, Hn|].
  split; [done|]. intros a Ha. by apply Hnb.
Qed.

Lemma build_nodes_mirrors_links_witness :
  ∃ nodes, build_nodes [1; 3; 2; 2]%Z triangle_net = (Ret nodes, triangle_net) ∧
           nodes !! 1%Z = Some [3; 2]%Z.
Proof.
  destruct (build_nodes_mirrors_links triangle_net 1 100 [1; 3; 2; 2]%Z)
    as (nodes & Hn & _ & Hnb); [vm_compute; reflexivity|].
  exists nodes. split; [done|]. rewrite Hnb by (by left).
  vm_compute. reflexivity.
Defined.

(** ** The flags after a rebuild *)

Lemma rebuilt_active_at s paths i :
  is_Some (heap s !! i) →
  active_at (rebuilt s paths) i
  = new_flag (best_set s paths) (dropped_set s paths) i (active_at s i).
Proof.
  intros [l Hl]. unfold active_at, rebuilt. simpl.
  by rewrite reflag_lookup, Hl.
Qed.

(** X4.  After a rebuild that completes on a well-formed store, with [paths]
    the result of the shortest-path engine on the node graph of the
    component: a link that leads from a node to its best neighbour, or whose
    reverse does, is active; any other link of a node that has a best
    neighbour, or whose reverse is one, is inactive, whatever its flag was;
    and every other link keeps its flag. *)
Theorem rebuild_flags fsp fuel start s s' :
  wf s →
  _rebuild_spanning_tree fsp fuel start s = (Ret tt, s') →
  ∃ x sws nodes,
    start_of start s = Some x ∧
    sweep fuel [x] ∅ 0 s = (Ret sws, s) ∧
    build_nodes sws s = (Ret nodes, s) ∧
    ∀ i, is_Some (heap s !! i) →
      let best := leads_to_best s (fsp x nodes) i ∨
                  leads_to_best s (fsp x nodes) (rev_of s i) in
      let seen := seen_from s (fsp x nodes) i ∨
                  seen_from s (fsp x nodes) (rev_of s i) in
      (best → active_at s' i = true) ∧
      (¬ best → seen → active_at s' i = false) ∧
      (¬ seen → active_at s' i = active_at s i).
Proof.
  intros Hwf H. pose proof (wf_rev_involutive s Hwf) as Hrev.
  apply rebuild_inv in H as (x & sws & nodes & Hx & Hsw & Hn & _ & ->); [|done].
  exists x, sws, nodes. split_and!; try done. intros i Hi.
  set (paths := fsp x nodes).
  assert (HB : i ∈ best_set s paths ↔
               leads_to_best s paths i ∨ leads_to_best s paths (rev_of s i)).
  { unfold best_set. rewrite elem_of_with_reverses by done.
    by rewrite !elem_of_uplinks. }
  assert (HE : i ∈ with_reverses s (examined s paths) ↔
               seen_from s paths i ∨ seen_from s paths (rev_of s i)).
  { rewrite elem_of_with_reverses by done. by rewrite !elem_of_examined. }
  rewrite rebuilt_active_at by done. unfold new_flag, dropped_set. cbv zeta.
  rewrite <- HB, <- HE. split_and!.
  - intros Hb. rewrite decide_False by set_solver. by rewrite decide_True.
  - intros Hb He. by rewrite decide_True by set_solver.
  - intros He. rewrite decide_False by set_solver.
    rewrite decide_False; [done|]. intros Hb. apply He.
    apply best_dropped_examined; auto.
Qed.

Lemma rebuild_flags_witness :
  ∃ s', _rebuild_spanning_tree bfs_shortest_paths 20 (Some 2%Z) triangle_net
          = (Ret tt, s') ∧
        active_at triangle_net 2 = true ∧ active_at s' 2 = false ∧
        active_at triangle_net 0 = false ∧ active_at s' 0 = true.
Proof.
  assert (Hwf : wf triangle_net) by (apply wf_check_sound; vm_compute; reflexivity).
  destruct (_rebuild_spanning_tree bfs_shortest_paths 20 (Some 2%Z) triangle_net)
    as [o s'] eqn:E.
  assert (o = Ret tt) as -> by (vm_compute in E; by injection E as <- _).
  destruct (rebuild_flags _ _ _ _ _ Hwf E) as (x & sws & nodes & _ & _ & _ & _).
  exists s'. split; [done|]. vm_compute in E. injection E as <-.
  split_and!; vm_compute; reflexivity.
Defined.

(** ** The order of iteration does not matter *)

Lemma uplinks_Permutation s p1 p2 : p1 ≡ₚ p2 → uplinks s p1 = uplinks s p2.
Proof.
  intros Hp. apply set_eq. intros i. rewrite !elem_of_uplinks.
  by setoid_rewrite Hp.
Qed.

Lemma examined_Permutation s p1 p2 : p1 ≡ₚ p2 → examined s p1 = examined s p2.
Proof.
  intros Hp. apply set_eq. intros i. rewrite !elem_of_examined.
  by setoid_rewrite Hp.
Qed.

Lemma rebuilt_Permutation s p1 p2 : p1 ≡ₚ p2 → rebuilt s p1 = rebuilt s p2.
Proof.
  intros Hp. unfold rebuilt, dropped_set, best_set.
  by rewrite (uplinks_Permutation s p1 p2 Hp), (examined_Permutation s p1 p2 Hp).
Qed.

(** X5.  The store a rebuild leaves does not depend on the order in which
    the items of [paths] are visited: two engines whose results are equal up
    to order lead, on a well-formed store, to the same store. *)
Theorem rebuild_order_independent fsp1 fsp2 fuel start s s' :
  wf s → (∀ x nodes, fsp1 x nodes ≡ₚ fsp2 x nodes) →
  _rebuild_spanning_tree fsp1 fuel start s = (Ret tt, s') →
  _rebuild_spanning_tree fsp2 fuel start s = (Ret tt, s').
Proof.
  intros Hwf Hperm H.
  apply rebuild_inv in H as (x & sws & nodes & Hx & Hsw & Hn & Hreg & ->);
    [|done].
  rewrite (rebuilt_Permutation s _ _ (Hperm x nodes)).
  apply (rebuild_run fsp2 fuel start x s sws nodes); try done.
  intros k b Hk. apply (Hreg k b). by rewrite (Hperm x nodes).
Qed.

Lemma rebuild_order_independent_witness :
  ∃ s', _rebuild_spanning_tree bfs_shortest_paths 20 None triangle_net
          = (Ret tt, s') ∧
        _rebuild_spanning_tree
          (λ x nodes, reverse (bfs_shortest_paths x nodes)) 20 None triangle_net
          = (Ret tt, s').
Proof.
  eexists. split; [vm_compute; reflexivity|].
  apply (rebuild_order_independent bfs_shortest_paths).
  - apply wf_check_sound. vm_compute. reflexivity.
  - intros x nodes. by rewrite reverse_Permutation.
  - vm_compute. reflexivity.
Defined.

(** ** What MAC-location propagation leaves alone *)

#[global] Instance same_but_mac_preorder mac : PreOrder (same_but_mac mac).
Proof.
  split.
  - intros s. by split.
  - intros s1 s2 s3 [H12 M12] [H23 M23]. split; [by etrans|].
    intros X m Hm. by rewrite M23, M12.
Qed.

Lemma learn_same_but_mac d mac p :
  preserves (same_but_mac mac) (learn_mac_location d mac p).
Proof.
  intros s o s' H. split; [by eapply learn_same_links|].
  unfold learn_mac_location in H.
  destruct (switches s !! d) as [sw|] eqn:Hd; injection H as _ <-; [|done].
  intros X m Hm. unfold mac_at. simpl.
  destruct (decide (d = X)) as [<-|Hne].
  - rewrite lookup_insert_eq, Hd. simpl. by rewrite lookup_insert_ne.
  - by rewrite lookup_insert_ne.
Qed.

Lemma teach_same_but_mac fuel d mac port :
  preserves (same_but_mac mac) (_teach_mac_location fuel d mac port).
Proof.
  revert d port. induction fuel as [|fuel IH]; intros d port; simpl.
  - apply preserves_out_of_fuel, _.
  - apply preserves_get_put; [apply _|by intros s; split|].
    apply preserves_bind; [apply _|apply learn_same_but_mac|].
    intros _. apply preserves_bind; [apply _|apply preserves_link_objects, _|].
    intros ls. apply preserves_for_each; [apply _|]. intros l.
    apply preserves_bind; [apply _|apply preserves_deref, _|]. intros r. apply IH.
Qed.

(** X6.  Whatever its outcome, a call of [_teach_mac_location] for [mac]
    leaves every link object, the link list of every switch, the root, and
    the binding of every other MAC address at every switch as they were. *)
Theorem teach_touches_one_mac fuel d mac port s o s' :
  _teach_mac_location fuel d mac port s = (o, s') →
  heap s' = heap s ∧ root s' = root s ∧
  (∀ X, links_at s' X = links_at s X) ∧
  ∀ X m, m ≠ mac → mac_at s' X m = mac_at s X m.
Proof.
  intros H. apply teach_same_but_mac in H as [Hl Hm].
  split_and!; try done.
  - by apply same_links_heap.
  - by destruct Hl as (_ & -> & _).
  - intros X. by apply same_links_links_at.
Qed.

Lemma teach_touches_one_mac_witness :
  ∃ s', _teach_mac_location 10 3 77 5 line_net = (Ret tt, s') ∧
        heap s' = heap line_net ∧ mac_at s' 2 77 = Some 2%Z ∧
        mac_at s' 2 78 = None.
Proof.
  destruct (_teach_mac_location 10 3 77 5 line_net) as [o s'] eqn:E.
  destruct (teach_touches_one_mac _ _ _ _ _ _ _ E) as (Hh & _ & _ & Hm).
  assert (o = Ret tt) as -> by (vm_compute in E; by injection E as <- _).
  exists s'. split; [reflexivity|]. split; [exact Hh|]. split.
  - vm_compute in E. injection E as <-. vm_compute. reflexivity.
  - rewrite Hm by lia. vm_compute. reflexivity.
Defined.

(** X7.  After a completed call on a well-formed store, a switch that is
    the end of no walk over active links from the taught switch that stays
    off the ports of arrival keeps the binding it had for [mac]. *)
Theorem teach_leaves_unreached fuel d mac port s s' X :
  wf s →
  _teach_mac_location fuel d mac port s = (Ret tt, s') →
  (∀ w, walk s d w X → ¬ off_port s port w) →
  mac_at s' X mac = mac_at s X mac.
Proof.
  intros Hwf H Hnone.
  destruct (teach_post_holds mac fuel s d port s s' Hwf ltac:(done) H)
    as (L & _ & Hin & Htab).
  rewrite Htab. apply replay_none.
  intros e (w & X' & Hw & Hoff & ->)%Hin [HX _]. simpl in HX. subst X'.
  by apply (Hnone w).
Qed.

Lemma line_net_walks_stay a w b :
  walk line_net a w b → a ∈ [1; 2; 3]%Z → b ∈ [1; 2; 3]%Z.
Proof.
  assert (Hwf : wf line_net) by (apply wf_check_sound; vm_compute; reflexivity).
  induction 1 as [|a i w b Hi _ _ IH]; [done|]. intros Ha. apply IH.
  destruct (links_at_lookup line_net Hwf a i Hi) as (l & Hl & _).
  apply lookup_lt_Some in Hl.
  assert (Hlen : length (heap line_net) = 4) by (vm_compute; reflexivity).
  rewrite Hlen in Hl.
  destruct i as [|[|[|[|i]]]]; [| | | |lia]; vm_compute; set_solver.
Qed.

Lemma teach_leaves_unreached_witness :
  ∃ s', _teach_mac_location 10 2 77 2 line_net = (Ret tt, s') ∧
        mac_at s' 4 77 = mac_at line_net 4 77.
Proof.
  assert (Hwf : wf line_net) by (apply wf_check_sound; vm_compute; reflexivity).
  destruct (_teach_mac_location 10 2 77 2 line_net) as [o s'] eqn:E.
  assert (o = Ret tt) as -> by (vm_compute in E; by injection E as <- _).
  exists s'. split; [reflexivity|].
  apply (teach_leaves_unreached 10 2 77 2 line_net s' 4 Hwf E).
  intros w Hw _.
  assert (Hin : (4 ∈ [1; 2; 3])%Z).
  { apply (line_net_walks_stay 2 w 4 Hw). right. left. }
  apply elem_of_cons in Hin as [Hin|Hin]; [discriminate Hin|].
  apply elem_of_cons in Hin as [Hin|Hin]; [discriminate Hin|].
  apply elem_of_cons in Hin as [Hin|Hin]; [discriminate Hin|].
  by apply elem_of_nil in Hin.
Defined.
